(** * The go2cpp audio player ([audio/internal/go2cpp/player_js.go])

    A shallow embedding of the [Player] type of package [go2cpp] and of its
    methods, together with the properties of its transport state machine
    and of its streaming loop.

    The Go code talks to a JavaScript audio sink through [syscall/js] and
    guards the fields of [Player] with a [sync.Cond].  Both are modelled by
    the events they produce: every method is a state transformer on a
    [World] (the player structure, the JavaScript objects it can reach and
    the trace of the events performed so far), inside a small monad whose
    results are either a value or a Go panic. *)

From Stdlib Require Import Floats.SpecFloat Strings.Byte.
From stdpp Require Import base list gmap strings.

Open Scope string_scope.

(** ** Data model *)

Module go2cpp.

(** [float64]: the IEEE 754 binary64 values, as data. *)
Abbreviation float64 := spec_float.

(** The Go value [1] of type [float64]: 2^52 * 2^-52. *)
Definition float64_one : float64 := S754_finite false 4503599627370496 (-52).

(** The Go value [0.5]: 2^52 * 2^-53. *)
Definition float64_half : float64 := S754_finite false 4503599627370496 (-53).

(** Go [error] values as far as the player tells them apart: [io.EOF] and
    every other (non-nil) error.  A possibly-nil [error] is an
    [option error]. *)
Inductive error : Type :=
| EOF
| ErrOther (msg : string).

Global Instance error_eq_dec : EqDecision error.
Proof. solve_decision. Defined.

(** [js.Value], restricted to the two kinds of value the field [Player.v]
    ever holds: [js.Undefined()] and the object returned by
    [createPlayer].  Objects are named by a number. *)
Inductive jsValue : Type :=
| JsUndefined
| JsObject (id : nat).

Global Instance jsValue_eq_dec : EqDecision jsValue.
Proof. solve_decision. Defined.

(** [Value.Truthy]: [undefined] is falsy, every object is truthy. *)
Definition Truthy (x : jsValue) : bool :=
  match x with
  | JsUndefined => false
  | JsObject _ => true
  end.

(** [playerState], with the constants in the order of the [iota] block. *)
Inductive playerState : Type :=
| playerStatePaused
| playerStatePlaying
| playerStateClosed.

Global Instance playerState_eq_dec : EqDecision playerState.
Proof. solve_decision. Defined.

(** An [io.Reader] is modelled by the results its successive [Read] calls
    are going to return: the bytes stored at the front of the buffer (their
    number is the [n] of the Go call) and the error.  After the last
    scripted result a reader reports [0, io.EOF]. *)
Definition Reader : Type := list (list byte * option error).

Record Context : Type := mkContext {
  cv : jsValue                       (* Context.v *)
}.

(** The fields of [Player].  [cond] and [onWritten] carry no data of their
    own; their uses appear as events. *)
Record Player : Type := mkPlayer {
  context : Context;
  src : Reader;
  v : jsValue;
  state : playerState;
  volume : float64;
  err : option error
}.

(** Arguments handed to JavaScript. *)
Inductive jsArg : Type :=
| ArgBool (b : bool)
| ArgFloat (f : float64)
| ArgInt (n : nat)
| ArgBytes (bs : list byte)          (* the contents of a Uint8Array *)
| ArgFunc.                           (* p.onWritten *)

(** What a method does besides updating fields. *)
Inductive event : Type :=
| EvLock                              (* p.cond.L.Lock() *)
| EvUnlock                            (* p.cond.L.Unlock() *)
| EvSignal                            (* p.cond.Signal() *)
| EvWait                              (* p.cond.Wait() *)
| EvSetFinalizer (armed : bool)       (* runtime.SetFinalizer(p, ...) *)
| EvCall (recv : jsValue) (m : string) (args : list jsArg)
| EvSet (recv : jsValue) (prop : string) (x : jsArg)
| EvGet (recv : jsValue) (prop : string)
| EvGo                                (* go p.loop() *)
| EvRelease                           (* p.onWritten.Release() *)
| EvRead (n : nat) (e : option error). (* p.src.Read(buf) *)

(** The player and its surroundings.  [jsVolume] is the [volume] property
    of the JavaScript objects, [jsNext] the name of the next object that
    [createPlayer] returns, [polls] the number of [isWritable] calls made
    so far. *)
Record World : Type := mkWorld {
  player : Player;
  jsVolume : gmap nat float64;
  jsNext : nat;
  polls : nat;
  trace : list event
}.

Definition with_player (f : Player -> Player) (w : World) : World :=
  mkWorld (f (player w)) (jsVolume w) (jsNext w) (polls w) (trace w).

Definition set_src (r : Reader) (p : Player) : Player :=
  mkPlayer (context p) r (v p) (state p) (volume p) (err p).
Definition set_v (x : jsValue) (p : Player) : Player :=
  mkPlayer (context p) (src p) x (state p) (volume p) (err p).
Definition set_state (s : playerState) (p : Player) : Player :=
  mkPlayer (context p) (src p) (v p) s (volume p) (err p).
Definition set_volume (f : float64) (p : Player) : Player :=
  mkPlayer (context p) (src p) (v p) (state p) f (err p).
Definition set_err (e : option error) (p : Player) : Player :=
  mkPlayer (context p) (src p) (v p) (state p) (volume p) e.

(** ** The monad of Go methods *)

Inductive result (A : Type) : Type :=
| Ret (a : A)
| Panic (msg : string).
Arguments Ret {A} a.
Arguments Panic {A} msg.

Definition M (A : Type) : Type := World -> result A * World.

Definition ret {A} (a : A) : M A := fun w => (Ret a, w).

Definition bind {A B} (m : M A) (k : A -> M B) : M B :=
  fun w =>
    match m w with
    | (Ret a, w') => k a w'
    | (Panic msg, w') => (Panic msg, w')
    end.

Definition panic {A} (msg : string) : M A := fun w => (Panic msg, w).

Notation "x <- m ;; k" := (bind m (fun x => k))
  (at level 100, m at next level, right associativity).
Notation "m ;;; k" := (bind m (fun _ => k))
  (at level 100, right associativity).

Definition emit (e : event) : M unit :=
  fun w => (Ret tt,
            mkWorld (player w) (jsVolume w) (jsNext w) (polls w) (trace w ++ [e])).

Definition get {A} (f : Player -> A) : M A := fun w => (Ret (f (player w)), w).

Definition modify (f : Player -> Player) : M unit :=
  fun w => (Ret tt, with_player f w).

(** [p.cond.L.Lock(); defer p.cond.L.Unlock()]: the deferred call also runs
    when the body panics. *)
Definition locked {A} (body : M A) : M A :=
  fun w =>
    let (r, w') := (emit EvLock ;;; body) w in
    (r, snd (emit EvUnlock w')).

(** ** syscall/js *)

(** [Value.Call] for a method whose result the player ignores ([play],
    [pause], [close], [write]).  As documented in [syscall/js], the call
    panics when the receiver has no such method, which is the case of
    [undefined]. *)
Definition jsCall (recv : jsValue) (m : string) (args : list jsArg) : M unit :=
  emit (EvCall recv m args) ;;;
  match recv with
  | JsUndefined => panic "syscall/js: call of Value.Call on undefined"
  | JsObject _ => ret tt
  end.

(** [p.context.v.Call("createPlayer", p.onWritten)]: the sink returns a new
    object. *)
Definition jsCreatePlayer (recv : jsValue) : M jsValue :=
  emit (EvCall recv "createPlayer" [ArgFunc]) ;;;
  match recv with
  | JsUndefined => panic "syscall/js: call of Value.Call on undefined"
  | JsObject _ =>
      fun w => (Ret (JsObject (jsNext w)),
                mkWorld (player w) (jsVolume w) (S (jsNext w)) (polls w) (trace w))
  end.

(** [p.v.Call("isWritable").Bool()]: the answer is the sink's; [writable k]
    is its answer to the [k]-th call. *)
Definition jsIsWritable (writable : nat -> bool) (recv : jsValue) : M bool :=
  emit (EvCall recv "isWritable" []) ;;;
  match recv with
  | JsUndefined => panic "syscall/js: call of Value.Call on undefined"
  | JsObject _ =>
      fun w => (Ret (writable (polls w)),
                mkWorld (player w) (jsVolume w) (jsNext w) (S (polls w)) (trace w))
  end.

(** [recv.Set("volume", x)]. *)
Definition jsSetVolume (recv : jsValue) (x : float64) : M unit :=
  emit (EvSet recv "volume" (ArgFloat x)) ;;;
  match recv with
  | JsUndefined => panic "syscall/js: call of Value.Set on undefined"
  | JsObject id =>
      fun w => (Ret tt,
                mkWorld (player w) (<[id := x]> (jsVolume w)) (jsNext w) (polls w) (trace w))
  end.

(** [recv.Get("volume").Float()]. *)
Definition jsGetVolume (recv : jsValue) : M float64 :=
  emit (EvGet recv "volume") ;;;
  match recv with
  | JsUndefined => panic "syscall/js: call of Value.Get on undefined"
  | JsObject id =>
      fun w =>
        match jsVolume w !! id with
        | Some x => (Ret x, w)
        | None => (Panic "syscall/js: call of Value.Float on undefined", w)
        end
  end.

(** [js.CopyBytesToJS(dst, src)]: copies [min (len dst) (len src)] bytes to
    the front of [dst]. *)
Definition CopyBytesToJS (dst src : list byte) : list byte :=
  let n := Nat.min (length dst) (length src) in
  take n src ++ drop n dst.

(** ** The methods of Player *)

(** [Context.NewPlayer]. *)
Definition NewPlayer (c : Context) (r : Reader) : Player :=
  mkPlayer c r JsUndefined playerStatePaused float64_one None.

(** [==] on [playerState]. *)
Definition state_eqb (a b : playerState) : bool :=
  match a, b with
  | playerStatePaused, playerStatePaused
  | playerStatePlaying, playerStatePlaying
  | playerStateClosed, playerStateClosed => true
  | _, _ => false
  end.

Definition is_closed (s : playerState) : bool :=
  state_eqb s playerStateClosed.

Definition Pause : M unit :=
  locked (
    s <- get state ;;
    if is_closed s then ret tt else
    h <- get v ;;
    if negb (Truthy h) then ret tt else
    jsCall h "pause" [] ;;;
    modify (set_state playerStatePaused) ;;;
    emit EvSignal).

Definition Play : M unit :=
  locked (
    s <- get state ;;
    if is_closed s then ret tt else
    h <- get v ;;
    (if negb (Truthy h) then
       c <- get context ;;
       h' <- jsCreatePlayer (cv c) ;;
       modify (set_v h') ;;;
       vol <- get volume ;;
       jsSetVolume h' vol ;;;
       emit EvGo
     else ret tt) ;;;
    h <- get v ;;
    jsCall h "play" [] ;;;
    modify (set_state playerStatePlaying) ;;;
    emit EvSignal).

Definition Reset : M unit :=
  locked (
    s <- get state ;;
    if is_closed s then ret tt else
    h <- get v ;;
    if negb (Truthy h) then ret tt else
    jsCall h "close" [ArgBool true] ;;;
    modify (set_v JsUndefined) ;;;
    emit EvSignal).

Definition Volume : M float64 :=
  h <- get v ;;
  if negb (Truthy h) then get volume else
  jsGetVolume h.

Definition SetVolume (volume : float64) : M unit :=
  h <- get v ;;
  if negb (Truthy h) then ret tt else
  jsSetVolume h volume ;;;
  modify (set_volume volume).

Definition close (remove : bool) : M (option error) :=
  locked (
    s <- get state ;;
    if is_closed s then get err else
    h <- get v ;;
    jsCall h "close" [ArgBool false] ;;;
    modify (set_v JsUndefined) ;;;
    (if remove then
       modify (set_state playerStateClosed) ;;;
       emit EvRelease
     else
       modify (set_state playerStatePaused)) ;;;
    emit EvSignal ;;;
    get err).

Definition Close : M (option error) :=
  emit (EvSetFinalizer false) ;;;
  close true.

Definition setError (e : error) : M unit :=
  locked (
    s <- get state ;;
    h <- get v ;;
    (if negb (is_closed s) && Truthy h then
       jsCall h "close" [ArgBool true] ;;;
       modify (set_v JsUndefined)
     else ret tt) ;;;
    modify (set_err (Some e)) ;;;
    modify (set_state playerStateClosed) ;;;
    emit EvSignal).

(** [write] returns the contents of the array [dst] after the call. *)
Definition write (dst : list byte) (src : list byte) : M (list byte) :=
  locked (
    s <- get state ;;
    if is_closed s then ret dst else
    h <- get v ;;
    if negb (Truthy h) then ret dst else
    let dst' := CopyBytesToJS dst src in
    jsCall h "write" [ArgBytes dst'; ArgInt (length src)] ;;;
    ret dst').

(** ** The streaming task *)

(** [p.src.Read(buf)]: the next scripted result; the bytes are [buf[:n]]. *)
Definition Read : M (list byte * option error) :=
  r <- get src ;;
  match r with
  | [] => emit (EvRead 0 (Some EOF)) ;;; ret ([], Some EOF)
  | (chunk, e) :: rest =>
      modify (set_src rest) ;;;
      emit (EvRead (length chunk) e) ;;;
      ret (chunk, e)
  end.

(** The task blocks in [p.cond.Wait()] and may do so for ever.  Its two
    looping methods therefore take a bound [fuel] on the number of times
    they go round, and answer [None] when the bound is reached. *)
Definition F (A : Type) : Type := World -> option (result A * World).

Definition retF {A} (a : A) : F A := fun w => Some (Ret a, w).

Definition bindF {A B} (m : F A) (k : A -> F B) : F B :=
  fun w =>
    match m w with
    | None => None
    | Some (Ret a, w') => k a w'
    | Some (Panic msg, w') => Some (Panic msg, w')
    end.

Definition lift {A} (m : M A) : F A := fun w => Some (m w).

(** The condition of the [for] statement of [waitUntilUnpaused], evaluated
    left to right with the short cuts of [&&] and [||]. *)
Definition mustWait (writable : nat -> bool) : M bool :=
  h <- get v ;;
  if negb (Truthy h) then ret false else
  s <- get state ;;
  if state_eqb s playerStatePaused then ret true else
  if negb (state_eqb s playerStatePlaying) then ret false else
  b <- jsIsWritable writable h ;;
  ret (negb b).

(** [for cond { p.cond.Wait() }] *)
Fixpoint waiting (writable : nat -> bool) (fuel : nat) : F unit :=
  bindF (lift (mustWait writable)) (fun again =>
    if negb again then retF tt else
    match fuel with
    | 0 => fun _ => None
    | S fuel' => bindF (lift (emit EvWait)) (fun _ => waiting writable fuel')
    end).

Definition waitUntilUnpaused (writable : nat -> bool) (fuel : nat) : F bool :=
  fun w =>
    match
      bindF (lift (emit EvLock)) (fun _ =>
      bindF (waiting writable fuel) (fun _ =>
      lift (h <- get v ;;
            s <- get state ;;
            ret (Truthy h && state_eqb s playerStatePlaying)))) w
    with
    | None => None
    | Some (r, w') => Some (r, snd (emit EvUnlock w'))
    end.

Definition size : nat := 4096.

(** [err != nil && err != io.EOF], with the error when it holds. *)
Definition fatal (e : option error) : option error :=
  match e with
  | Some (ErrOther msg) => Some (ErrOther msg)
  | _ => None
  end.

(** [err == io.EOF] *)
Definition is_eof (e : option error) : bool :=
  match e with
  | Some EOF => true
  | _ => false
  end.

(** One round of the [for] statement of [loop], and the rounds after it;
    [dst] is the contents of the Uint8Array. *)
Fixpoint loop_from (writable : nat -> bool) (fuel : nat) (dst : list byte) : F unit :=
  match fuel with
  | 0 => fun _ => None
  | S fuel' =>
      bindF (waitUntilUnpaused writable fuel') (fun ok =>
      if negb ok then retF tt else
      bindF (lift Read) (fun '(chunk, e) =>
      match fatal e with
      | Some e' => lift (setError e')
      | None =>
          bindF (lift (if Nat.ltb 0 (length chunk)
                       then write dst chunk else ret dst)) (fun dst' =>
          if is_eof e
          then lift (close false ;;; ret tt)
          else loop_from writable fuel' dst')
      end))
  end.

Definition loop (writable : nat -> bool) (fuel : nat) : F unit :=
  loop_from writable fuel (replicate size Byte.x00).

(** ** Observations on runs *)

(** The world a method leaves behind. *)
Definition exec {A} (m : M A) (w : World) : World := snd (m w).

(** The events performed between two worlds of one run. *)
Definition emitted (w w' : World) : list event :=
  drop (length (trace w)) (trace w').

(** The bytes an event hands to the sink [h]: [write(buffer, length)] takes
    the first [length] bytes of [buffer]. *)
Definition writtenBy (h : nat) (e : event) : list byte :=
  match e with
  | EvCall (JsObject h') m [ArgBytes buffer; ArgInt n] =>
      if Nat.eqb h' h && String.eqb m "write"
      then take n buffer else []
  | _ => []
  end.

Definition written (h : nat) (t : list event) : list byte :=
  flat_map (writtenBy h) t.

(** Allocations of a handle, and starts of a streaming task. *)
Definition is_create (e : event) : bool :=
  match e with
  | EvCall _ m _ => String.eqb m "createPlayer"
  | _ => false
  end.

Definition is_go (e : event) : bool :=
  match e with
  | EvGo => true
  | _ => false
  end.

Definition is_read (e : event) : bool :=
  match e with
  | EvRead _ _ => true
  | _ => false
  end.

Definition is_write (e : event) : bool :=
  match e with
  | EvCall _ m _ => String.eqb m "write"
  | _ => false
  end.

Definition is_lock (e : event) : bool :=
  match e with
  | EvLock => true
  | _ => false
  end.

(** The calls of [close] on a sink, with the value of their argument. *)
Definition closeFlags (t : list event) : list bool :=
  flat_map (fun e =>
    match e with
    | EvCall _ m [ArgBool b] => if String.eqb m "close" then [b] else []
    | _ => []
    end) t.

(** A call of a method of [Player], and the value it returns. *)
Inductive call : Type :=
| CallPause
| CallPlay
| CallReset
| CallVolume
| CallSetVolume (volume : float64)
| CallClose
| Callclose (remove : bool)
| CallsetError (e : error)
| Callwrite (dst src : list byte).

Inductive value : Type :=
| VNone
| VFloat (f : float64)
| VError (e : option error)
| VBytes (bs : list byte).

Definition perform (c : call) : M value :=
  match c with
  | CallPause => Pause ;;; ret VNone
  | CallPlay => Play ;;; ret VNone
  | CallReset => Reset ;;; ret VNone
  | CallVolume => f <- Volume ;; ret (VFloat f)
  | CallSetVolume x => SetVolume x ;;; ret VNone
  | CallClose => e <- Close ;; ret (VError e)
  | Callclose remove => e <- close remove ;; ret (VError e)
  | CallsetError e => setError e ;;; ret VNone
  | Callwrite dst src => bs <- write dst src ;; ret (VBytes bs)
  end.

(** The exported methods. *)
Definition public (c : call) : bool :=
  match c with
  | CallPause | CallPlay | CallReset | CallVolume | CallSetVolume _ | CallClose => true
  | _ => false
  end.

(** Calls made one after the other.  A caller may recover from a panic, so
    the run goes on after one. *)
Definition run (cs : list call) (w : World) : World :=
  foldl (fun w c => exec (perform c) w) w cs.

(** [Play] and the task it starts.  The task begins by taking the lock, so
    its first step comes after [Play] has returned. *)
Definition PlayAndLoop (writable : nat -> bool) (fuel : nat) : F unit :=
  bindF (lift Play) (fun _ => loop writable fuel).

(** A source that yields the bytes [data] and then the end of the stream,
    never more than [size] bytes at a time.  The end is reported alone,
    with the last bytes, or by the script running out. *)
Inductive yields : Reader -> list byte -> Prop :=
| yields_end : yields [] []
| yields_eof chunk rest :
    length chunk <= size -> yields ((chunk, Some EOF) :: rest) chunk
| yields_more chunk r data :
    length chunk <= size -> yields r data ->
    yields ((chunk, None) :: r) (chunk ++ data).

(** The sink does not refuse data for ever. *)
Definition eventually_writable (writable : nat -> bool) : Prop :=
  forall k, exists j, writable (k + j) = true.

(** ** Classes of events *)

(** Events that neither allocate a handle nor start a task. *)
Definition quiet (e : event) : bool := negb (is_create e) && negb (is_go e).

(** Events that concern neither the data nor the life of a handle. *)
Definition idle (e : event) : bool :=
  match e with
  | EvLock | EvUnlock | EvWait | EvSignal => true
  | EvCall _ m [] => String.eqb m "isWritable"
  | _ => false
  end.

(** What a run of the task did, seen from the sink [h]: the bytes it wrote
    there, nothing written elsewhere, the [close] calls it made, and no
    handle allocated nor task started. *)
Definition streamed (h : nat) (data : list byte) (flags : list bool)
    (evs : list event) : Prop :=
  written h evs = data /\
  (forall h', h' <> h -> written h' evs = []) /\
  closeFlags evs = flags /\
  List.filter is_create evs = [] /\
  List.filter is_go evs = [].

(** ** Sample worlds *)

(** A context whose sink is the object [0] and a player just made by its
    [NewPlayer] for the reader [r]. *)
Definition initial (r : Reader) : World :=
  mkWorld (NewPlayer (mkContext (JsObject 0)) r) ∅ 1 0 [].

(** Three bytes in two reads, the end of the stream with the second. *)
Definition three_bytes : Reader :=
  [([Byte.x01; Byte.x02], None); ([Byte.x03], Some EOF)].

(** Two bytes, then a read that delivers one byte and fails. *)
Definition failing : Reader :=
  [([Byte.x01; Byte.x02], None); ([Byte.x03], Some (ErrOther "read failed"))].

(** The player of [initial three_bytes] after [Play]. *)
Definition playing : World := exec Play (initial three_bytes).

(** [playing] after its task has reported a first error. *)
Definition failed_once : World := exec (setError (ErrOther "first")) playing.

(** A read that delivers one byte and fails. *)
Definition failing_now : Reader :=
  [([Byte.x03], Some (ErrOther "read failed"))].

(** The player of [initial failing_now] after [Play]. *)
Definition playing_failing : World := exec Play (initial failing_now).

(** A sink that accepts data at every second request. *)
Definition every_other (k : nat) : bool := Nat.odd k.

(** ** Further observations *)

Definition is_release (e : event) : bool :=
  match e with
  | EvRelease => true
  | _ => false
  end.

Definition panics {A} (r : result A) : bool :=
  match r with
  | Panic _ => true
  | Ret _ => false
  end.

(** The calls that end in the internal [close]. *)
Definition closes (c : call) : bool :=
  match c with
  | CallClose | Callclose _ => true
  | _ => false
  end.

(** What holds of a player and of the objects around it from [NewPlayer]
    on: a closed player has no handle; a handle is an object that
    [createPlayer] has returned, and its [volume] property is the cached
    volume; the context holds an object. *)
Definition consistent (w : World) : Prop :=
  (state (player w) = playerStateClosed -> v (player w) = JsUndefined) /\
  (forall h, v (player w) = JsObject h ->
     h < jsNext w /\ jsVolume w !! h = Some (volume (player w))) /\
  (exists ctx, cv (context (player w)) = JsObject ctx).

(** A world around a player just returned by [NewPlayer] of a context
    whose value is the object [ctx]. *)
Definition created (ctx : nat) (r : Reader) (heap : gmap nat float64)
    (next polled : nat) (t : list event) : World :=
  mkWorld (NewPlayer (mkContext (JsObject ctx)) r) heap next polled t.

(** The mutex protocol along a trace, [held] telling whether the lock is
    held at its start: [Lock] comes only when the lock is free; [Unlock],
    [Wait], [Signal], the calls on JavaScript values, the start of the
    task and the release of the callback come only while it is held; the
    source is read only while it is free.  The answer is the state of the
    lock at the end, if the protocol was followed. *)
Fixpoint disciplined (held : bool) (t : list event) : option bool :=
  match t with
  | [] => Some held
  | e :: t' =>
      match e with
      | EvLock => if held then None else disciplined true t'
      | EvUnlock => if held then disciplined false t' else None
      | EvRead _ _ => if held then None else disciplined false t'
      | EvSetFinalizer _ => disciplined held t'
      | _ => if held then disciplined true t' else None
      end
  end.

(** What a run of the task over a script hands to the sink, what it leaves
    of the script, and the error that ends it, if one does: reads without
    error are written and followed by the next read, a read with [io.EOF]
    is written and is the last, a read with another error is not written
    and is the last. *)
Fixpoint delivered (r : Reader) : list byte :=
  match r with
  | [] => []
  | (chunk, None) :: r' => chunk ++ delivered r'
  | (chunk, Some EOF) :: _ => chunk
  | (_, Some (ErrOther _)) :: _ => []
  end.

Fixpoint unread (r : Reader) : Reader :=
  match r with
  | [] => []
  | (_, None) :: r' => unread r'
  | (_, Some _) :: r' => r'
  end.

Fixpoint failure (r : Reader) : option error :=
  match r with
  | [] => None
  | (_, None) :: r' => failure r'
  | (_, Some e) :: _ => fatal (Some e)
  end.

(** Whether the run ends on an error other than [io.EOF]. *)
Definition failed (r : Reader) : bool :=
  match failure r with
  | Some _ => true
  | None => false
  end.

(** Every read fits the buffer of [size] bytes. *)
Definition fits (r : Reader) : Prop :=
  Forall (fun x => length (fst x) <= size) r.

(** The exported methods that do not take the lock. *)
Definition lock_free (c : call) : bool :=
  match c with
  | CallVolume | CallSetVolume _ => true
  | _ => false
  end.

End go2cpp.

Import go2cpp.
Open Scope list_scope.

(** ** Evaluating methods *)

(** Unfolds the monad and the methods, leaving the operations on lists and
    on maps alone. *)
Ltac unfold_methods :=
  cbv beta iota zeta delta
    [Pause Play Reset Volume SetVolume Close close setError write Read
     perform exec locked bind ret panic emit get modify
     jsCall jsCreatePlayer jsIsWritable jsSetVolume jsGetVolume
     with_player set_src set_v set_state set_volume set_err
     player jsVolume jsNext polls trace
     context src v state volume err cv
     Truthy is_closed state_eqb negb andb fst snd].

(** Computes [emitted w w'] once both traces are known. *)
Ltac eval_emitted :=
  unfold emitted; cbn [trace];
  rewrite <- ?app_assoc, ?drop_app_length, ?drop_all,
    ?length_app, ?drop_app_add; cbn.

Lemma emitted_app (w w' : World) (evs : list event) :
  trace w' = trace w ++ evs -> emitted w w' = evs.
Proof.
  intros E. unfold emitted. rewrite E. apply drop_app_length.
Qed.

(** ** The closed state is terminal *)

Lemma quiet_filters (evs : list event) :
  forallb quiet evs = true ->
  List.filter is_create evs = [] /\ List.filter is_go evs = [].
Proof.
  induction evs as [|e evs IH]; [done|].
  cbn [forallb]. intros [Hq Hr]%andb_prop.
  destruct (IH Hr) as [IH1 IH2].
  apply andb_prop in Hq as [Hc Hg].
  cbn [List.filter]. rewrite IH1, IH2.
  destruct (is_create e), (is_go e); done.
Qed.

Lemma perform_closed (c : call) (w : World) :
  state (player w) = playerStateClosed ->
  exists evs,
    trace (exec (perform c) w) = trace w ++ evs /\
    forallb quiet evs = true /\
    state (player (exec (perform c) w)) = playerStateClosed /\
    jsNext (exec (perform c) w) = jsNext w.
Proof.
  destruct w as [[[cx] r h st vol er] heap nx pl tr]. cbn. intros ->.
  destruct c; destruct h; try destruct remove;
    unfold_methods; try destruct (heap !! _);
    rewrite <- ?app_assoc;
    first [ eexists; split; [reflexivity | done]
          | exists []; split; [symmetry; apply app_nil_r | done] ].
Qed.

Lemma run_closed (cs : list call) (w : World) :
  state (player w) = playerStateClosed ->
  exists evs,
    trace (run cs w) = trace w ++ evs /\
    forallb quiet evs = true /\
    state (player (run cs w)) = playerStateClosed /\
    jsNext (run cs w) = jsNext w.
Proof.
  revert w. induction cs as [|c cs IH]; intros w Hw.
  - exists []. by rewrite app_nil_r.
  - destruct (perform_closed c w Hw) as (e1 & T1 & Q1 & S1 & N1).
    destruct (IH _ S1) as (e2 & T2 & Q2 & S2 & N2).
    exists (e1 ++ e2).
    change (run (c :: cs) w) with (run cs (exec (perform c) w)).
    rewrite T2, T1, N2, N1, app_assoc, forallb_app, Q1, Q2. done.
Qed.

Lemma run_app (cs1 cs2 : list call) (w : World) :
  run (cs1 ++ cs2) w = run cs2 (run cs1 w).
Proof. apply foldl_app. Qed.

(** A streaming task that finds the player closed stops at once. *)
Lemma loop_from_closed (writable : nat -> bool) (fuel : nat) (dst : list byte)
    (w : World) :
  state (player w) = playerStateClosed ->
  exists w',
    loop_from writable (S fuel) dst w = Some (Ret tt, w') /\
    player w' = player w /\ jsNext w' = jsNext w /\
    trace w' = trace w ++ [EvLock; EvUnlock].
Proof.
  destruct w as [[[cx] r h st vol er] heap nx pl tr]. cbn. intros ->.
  eexists. split; [|split; [|split]].
  - destruct fuel, h; reflexivity.
  - done.
  - done.
  - cbn. by rewrite <- app_assoc.
Qed.

(** C1: along every sequence of calls of the methods of a player ([Play],
    [Pause], [Reset], [Close], [Volume], [SetVolume], and the internal
    [close], [setError] and [write]), once [state] is [playerStateClosed]
    it stays so, no later call allocates a handle ([createPlayer] is not
    called and no object is created) or starts a task; a streaming task
    that runs afterwards returns without changing the player. *)
Theorem closed_is_terminal (cs1 cs2 : list call) (w0 : World) :
  state (player (run cs1 w0)) = playerStateClosed ->
  state (player (run (cs1 ++ cs2) w0)) = playerStateClosed /\
  jsNext (run (cs1 ++ cs2) w0) = jsNext (run cs1 w0) /\
  List.filter is_create (emitted (run cs1 w0) (run (cs1 ++ cs2) w0)) = [] /\
  List.filter is_go (emitted (run cs1 w0) (run (cs1 ++ cs2) w0)) = [] /\
  forall writable fuel dst, exists w',
    loop_from writable (S fuel) dst (run (cs1 ++ cs2) w0) = Some (Ret tt, w') /\
    player w' = player (run (cs1 ++ cs2) w0) /\
    jsNext w' = jsNext (run cs1 w0) /\
    List.filter is_create (emitted (run cs1 w0) w') = [].
Proof.
  intros Hc. rewrite run_app.
  destruct (run_closed cs2 _ Hc) as (evs & T & Q & S & N).
  destruct (quiet_filters _ Q) as [Q1 Q2].
  rewrite (emitted_app _ _ _ T).
  repeat split; try done.
  intros writable fuel dst.
  destruct (loop_from_closed writable fuel dst _ S) as (w' & L & P & N' & T').
  exists w'. repeat split; try done.
  - by rewrite N'.
  - rewrite (emitted_app _ w' (evs ++ [EvLock; EvUnlock])).
    + rewrite List.filter_app, Q1. done.
    + by rewrite T', T, app_assoc.
Qed.

(** ** Play allocates a handle and starts a task at most once *)

(** C5: [Play] on a player that has a handle calls [createPlayer] not at
    all and starts no task; it does both, once each, exactly when the
    player has no handle and is not closed; a second [Play] right after
    the first does neither. *)
Theorem Play_allocates_once (w : World) :
  (Truthy (v (player w)) = true ->
     List.filter is_create (emitted w (exec Play w)) = [] /\
     List.filter is_go (emitted w (exec Play w)) = [] /\
     jsNext (exec Play w) = jsNext w /\
     v (player (exec Play w)) = v (player w)) /\
  (List.filter is_go (emitted w (exec Play w)) <> [] \/
   jsNext (exec Play w) <> jsNext w ->
     Truthy (v (player w)) = false /\ state (player w) <> playerStateClosed) /\
  (forall ctx,
     Truthy (v (player w)) = false ->
     state (player w) <> playerStateClosed ->
     cv (context (player w)) = JsObject ctx ->
     List.filter is_create (emitted w (exec Play w)) =
       [EvCall (JsObject ctx) "createPlayer" [ArgFunc]] /\
     List.filter is_go (emitted w (exec Play w)) = [EvGo] /\
     v (player (exec Play w)) = JsObject (jsNext w) /\
     jsNext (exec Play w) = S (jsNext w) /\
     List.filter is_create (emitted (exec Play w) (exec Play (exec Play w))) = [] /\
     List.filter is_go (emitted (exec Play w) (exec Play (exec Play w))) = [] /\
     v (player (exec Play (exec Play w))) = JsObject (jsNext w)).
Proof.
  destruct w as [[[cx] r h st vol er] heap nx pl tr]. cbn.
  split; [|split].
  - destruct h; [done|]. intros _.
    destruct st; unfold_methods; eval_emitted; done.
  - destruct h, st, cx; unfold_methods; eval_emitted;
      intros [H|H]; done.
  - intros ctx. destruct h; [|done]. intros _ Hst ->.
    destruct st; [| |done]; unfold_methods; eval_emitted; done.
Qed.

(** ** Closing the handle *)

(** C4, as the code has it: the internal [close] passes [false] to the
    [close] method of the handle whatever [remove] is, so [Close()] does
    not ask the sink to discard pending audio; [Reset] and [setError] are
    the callers that pass [true]. *)
Theorem close_passes_false (remove : bool) (w : World) (h : nat) :
  v (player w) = JsObject h ->
  state (player w) <> playerStateClosed ->
  emitted w (exec (close remove) w) =
    [EvLock; EvCall (JsObject h) "close" [ArgBool false]] ++
    (if remove then [EvRelease] else []) ++ [EvSignal; EvUnlock] /\
  closeFlags (emitted w (exec (close remove) w)) = [false] /\
  closeFlags (emitted w (exec Close w)) = [false] /\
  v (player (exec Close w)) = JsUndefined /\
  state (player (exec Close w)) = playerStateClosed /\
  closeFlags (emitted w (exec Reset w)) = [true] /\
  forall e, closeFlags (emitted w (exec (setError e) w)) = [true].
Proof.
  destruct w as [[[cx] r h' st vol er] heap nx pl tr]. cbn.
  intros -> Hst.
  destruct st, remove; try done; unfold_methods; eval_emitted; done.
Qed.

(** C9: the internal [close] calls the [close] method on [p.v] without
    testing it.  On a player that is not closed and has no handle, a fresh
    one for instance, the call is made on [undefined]; [Value.Call] then
    panics, the deferred [Unlock] runs and the fields are left as they
    were.  [Pause] and [Reset] test the handle and call nothing. *)
Theorem close_calls_absent_handle (remove : bool) (w : World) :
  state (player w) <> playerStateClosed ->
  v (player w) = JsUndefined ->
  emitted w (exec (close remove) w) =
    [EvLock; EvCall JsUndefined "close" [ArgBool false]; EvUnlock] /\
  emitted w (exec Close w) =
    [EvSetFinalizer false; EvLock;
     EvCall JsUndefined "close" [ArgBool false]; EvUnlock] /\
  fst (close remove w) = Panic "syscall/js: call of Value.Call on undefined" /\
  fst (Close w) = Panic "syscall/js: call of Value.Call on undefined" /\
  player (exec (close remove) w) = player w /\
  player (exec Close w) = player w /\
  emitted w (exec Pause w) = [EvLock; EvUnlock] /\
  emitted w (exec Reset w) = [EvLock; EvUnlock].
Proof.
  destruct w as [[[cx] r h' st vol er] heap nx pl tr]. cbn.
  intros Hst ->.
  destruct st, remove; try done; unfold_methods; eval_emitted; done.
Qed.

(** ** The volume and its cache *)

(** C6: on a player without a handle [SetVolume] changes nothing at all, in
    particular not the cached [volume]: a later [Volume] still answers the
    earlier value, and a later [Play] hands that earlier value to the new
    handle.  The cache is written only when a handle is present. *)
Theorem SetVolume_without_handle (x : float64) (w : World) :
  (v (player w) = JsUndefined ->
     SetVolume x w = (Ret tt, w) /\
     fst (Volume (exec (SetVolume x) w)) = Ret (volume (player w)) /\
     (forall ctx,
        state (player w) <> playerStateClosed ->
        cv (context (player w)) = JsObject ctx ->
        In (EvSet (JsObject (jsNext w)) "volume" (ArgFloat (volume (player w))))
           (emitted w (exec Play (exec (SetVolume x) w))) /\
        volume (player (exec Play (exec (SetVolume x) w))) = volume (player w) /\
        fst (Volume (exec Play (exec (SetVolume x) w))) =
          Ret (volume (player w)))) /\
  (forall h,
     v (player w) = JsObject h ->
     volume (player (exec (SetVolume x) w)) = x /\
     fst (Volume (exec (SetVolume x) w)) = Ret x) /\
  (volume (player (exec (SetVolume x) w)) <> volume (player w) ->
     Truthy (v (player w)) = true).
Proof.
  destruct w as [[[cx] r h' st vol er] heap nx pl tr]. cbn.
  split; [|split].
  - intros ->. split; [done|]. split; [done|].
    intros ctx Hst ->.
    destruct st; [| |done]; unfold_methods; eval_emitted;
      rewrite lookup_insert_eq; repeat split; auto.
  - intros h ->. unfold_methods. rewrite lookup_insert_eq. done.
  - destruct h'; [|done]. unfold_methods. done.
Qed.

(** ** The recorded error *)

(** C7, as the code has it: [setError] stores its argument whatever was
    stored before, so the latest call wins; that error is the one [Close]
    returns.  No exported method writes the field. *)
Theorem setError_overwrites (e : error) (w : World) :
  err (player (exec (setError e) w)) = Some e /\
  state (player (exec (setError e) w)) = playerStateClosed /\
  fst (Close (exec (setError e) w)) = Ret (Some e) /\
  forall c, public c = true ->
    err (player (exec (perform c) w)) = err (player w).
Proof.
  destruct w as [[[cx] r h st vol er] heap nx pl tr].
  repeat split.
  - destruct st, h; reflexivity.
  - destruct st, h; reflexivity.
  - destruct st, h; reflexivity.
  - intros c Hc.
    destruct c; try done; destruct st, h, cx;
      unfold_methods; try destruct (heap !! _); reflexivity.
Qed.

(** ** Locking *)

(** C8 at [Volume] and [SetVolume]: neither method takes the lock.  With
    a handle present [SetVolume] sets the property of the handle and
    writes the field [volume] all the same, and [Volume] reads the handle.
    The other exported methods begin by taking the lock ([Close] after it
    has removed the finalizer). *)
Theorem Volume_SetVolume_take_no_lock (x : float64) (w : World) :
  List.filter is_lock (emitted w (exec Volume w)) = [] /\
  List.filter is_lock (emitted w (exec (SetVolume x) w)) = [] /\
  volume (player (exec (SetVolume x) w)) =
    (if Truthy (v (player w)) then x else volume (player w)) /\
  emitted w (exec (SetVolume x) w) =
    (if Truthy (v (player w))
     then [EvSet (v (player w)) "volume" (ArgFloat x)] else []) /\
  emitted w (exec Volume w) =
    (if Truthy (v (player w)) then [EvGet (v (player w)) "volume"] else []) /\
  head (emitted w (exec Pause w)) = Some EvLock /\
  head (emitted w (exec Play w)) = Some EvLock /\
  head (emitted w (exec Reset w)) = Some EvLock /\
  take 2 (emitted w (exec Close w)) = [EvSetFinalizer false; EvLock].
Proof.
  destruct w as [[[cx] r h' st vol er] heap nx pl tr]. cbn.
  repeat split.
  - destruct h'; unfold_methods; try destruct (heap !! _); eval_emitted; done.
  - destruct h'; unfold_methods; eval_emitted; done.
  - by destruct h'.
  - destruct h'; unfold_methods; eval_emitted; done.
  - destruct h'; unfold_methods; try destruct (heap !! _); eval_emitted; done.
  - destruct st, h'; unfold_methods; eval_emitted; done.
  - destruct st, h', cx; unfold_methods; eval_emitted; done.
  - destruct st, h'; unfold_methods; eval_emitted; done.
  - destruct st, h'; unfold_methods; eval_emitted; done.
Qed.

(** ** The streaming task: waiting *)

Lemma idle_silent (evs : list event) :
  forallb idle evs = true ->
  (forall h, written h evs = []) /\
  List.filter is_create evs = [] /\
  closeFlags evs = [].
Proof.
  induction evs as [|e evs IH]; [done|].
  cbn [forallb]. intros [He Hr]%andb_prop.
  destruct (IH Hr) as (IH1 & IH2 & IH3).
  unfold written, closeFlags in *. cbn [flat_map List.filter].
  rewrite IH2, IH3.
  destruct e as [| | | | |recv m args| | | | |]; try done;
    cbn in He |- *; try (split; [intros h; apply IH1|done]).
  destruct args; [|done].
  apply String.eqb_eq in He as ->.
  split; [intros h; destruct recv; apply IH1|done].
Qed.

Lemma waiting_unfold (writable : nat -> bool) (fuel : nat) :
  waiting writable fuel =
  bindF (lift (mustWait writable)) (fun again =>
    if negb again then retF tt else
    match fuel with
    | 0 => fun _ => None
    | S fuel' => bindF (lift (emit EvWait)) (fun _ => waiting writable fuel')
    end).
Proof. destruct fuel; reflexivity. Qed.

(** More fuel does not change an answer. *)
Lemma waiting_mono (writable : nat -> bool) (fuel fuel' : nat) (w : World) x :
  fuel <= fuel' ->
  waiting writable fuel w = Some x ->
  waiting writable fuel' w = Some x.
Proof.
  revert fuel' w. induction fuel as [|fuel IH]; intros fuel' w Hle.
  - rewrite (waiting_unfold writable 0), (waiting_unfold writable fuel').
    unfold bindF at 1 2, lift at 1 2.
    destruct (mustWait writable w) as [[[|]|msg] w1]; cbn [negb]; done.
  - destruct fuel' as [|fuel']; [lia|].
    rewrite (waiting_unfold writable (S fuel)),
      (waiting_unfold writable (S fuel')).
    unfold bindF at 1 3, lift at 1 3.
    destruct (mustWait writable w) as [[[|]|msg] w1]; cbn [negb]; try done.
    unfold bindF, lift. apply IH. lia.
Qed.

Lemma waitUntilUnpaused_mono (writable : nat -> bool) (fuel fuel' : nat)
    (w : World) x :
  waitUntilUnpaused writable fuel w = Some x -> fuel <= fuel' ->
  waitUntilUnpaused writable fuel' w = Some x.
Proof.
  unfold waitUntilUnpaused, bindF at 1 3, lift at 1 3. cbn [emit snd].
  intros H Hle. revert H. unfold bindF at 1 2.
  destruct (waiting writable fuel _) as [y|] eqn:E; [|done].
  by rewrite (waiting_mono _ _ _ _ _ Hle E).
Qed.

(** One round of [loop_from], written out. *)
Lemma loop_from_unfold (writable : nat -> bool) (fuel : nat) (dst : list byte)
    (w : World) :
  loop_from writable (S fuel) dst w =
  match waitUntilUnpaused writable fuel w with
  | None => None
  | Some (Panic msg, w1) => Some (Panic msg, w1)
  | Some (Ret false, w1) => Some (Ret tt, w1)
  | Some (Ret true, w1) =>
      match Read w1 with
      | (Panic msg, w2) => Some (Panic msg, w2)
      | (Ret (chunk, e), w2) =>
          match fatal e with
          | Some e' => Some (setError e' w2)
          | None =>
              match (if Nat.ltb 0 (length chunk)
                     then write dst chunk else ret dst) w2 with
              | (Panic msg, w3) => Some (Panic msg, w3)
              | (Ret dst', w3) =>
                  if is_eof e then Some ((close false ;;; ret tt) w3)
                  else loop_from writable fuel dst' w3
              end
          end
      end
  end.
Proof.
  cbn [loop_from]. unfold bindF at 1.
  destruct (waitUntilUnpaused writable fuel w) as [[[[|]|msg] w1]|];
    cbn [negb]; try reflexivity.
  unfold bindF at 1, lift at 1.
  destruct (Read w1) as [[[chunk e]|msg] w2]; [|reflexivity].
  destruct (fatal e); [reflexivity|].
  unfold bindF at 1, lift at 1.
  destruct ((if Nat.ltb 0 (length chunk) then write dst chunk else ret dst) w2)
    as [[dst'|msg] w3]; [|reflexivity].
  destruct (is_eof e); reflexivity.
Qed.

Lemma loop_from_mono (writable : nat -> bool) (fuel fuel' : nat)
    (dst : list byte) (w : World) x :
  fuel <= fuel' ->
  loop_from writable fuel dst w = Some x ->
  loop_from writable fuel' dst w = Some x.
Proof.
  revert fuel' dst w. induction fuel as [|fuel IH]; intros fuel' dst w Hle;
    [done|].
  destruct fuel' as [|fuel']; [lia|].
  rewrite !loop_from_unfold.
  destruct (waitUntilUnpaused writable fuel w) as [y|] eqn:E; [|done].
  rewrite (waitUntilUnpaused_mono _ _ fuel' _ _ E) by lia.
  destruct y as [[[|]|msg] w1]; try done.
  destruct (Read w1) as [[[chunk e]|msg] w2]; [|done].
  destruct (fatal e); [done|].
  destruct ((if Nat.ltb 0 (length chunk) then write dst chunk else ret dst) w2)
    as [[dst'|msg] w3]; [|done].
  destruct (is_eof e); [done|].
  apply IH. lia.
Qed.

(** All the runs of the task that come to an end end alike. *)
Lemma loop_from_agree (writable : nat -> bool) (f1 f2 : nat)
    (dst : list byte) (w : World) x y :
  loop_from writable f1 dst w = Some x ->
  loop_from writable f2 dst w = Some y -> x = y.
Proof.
  intros H1 H2.
  apply (loop_from_mono _ _ (Nat.max f1 f2)) in H1; [|lia].
  apply (loop_from_mono _ _ (Nat.max f1 f2)) in H2; [|lia].
  congruence.
Qed.

(** While the player is playing and the sink accepts data at some later
    request, the wait comes to an end and lets the task proceed; it
    changes nothing but the trace and the count of requests. *)
Lemma waiting_playing (writable : nat -> bool) (j : nat) :
  forall c r h vol er heap nx pl tr,
    writable (pl + j) = true ->
    exists pl' evs,
      waiting writable j
        (mkWorld (mkPlayer c r (JsObject h) playerStatePlaying vol er)
                 heap nx pl tr) =
      Some (Ret tt,
            mkWorld (mkPlayer c r (JsObject h) playerStatePlaying vol er)
                    heap nx pl' (tr ++ evs)) /\
      forallb idle evs = true.
Proof.
  induction j as [|j IH]; intros c r h vol er heap nx pl tr Hw;
    rewrite waiting_unfold; unfold bindF at 1, lift at 1;
    unfold mustWait; unfold_methods.
  - rewrite Nat.add_0_r in Hw. rewrite Hw. cbn [negb].
    eexists _, [_]. split; reflexivity.
  - destruct (writable pl) eqn:E; cbn [negb].
    + eexists _, [_]. split; reflexivity.
    + unfold bindF at 1, lift at 1. unfold_methods.
      destruct (IH c r h vol er heap nx (S pl)
                  ((tr ++ [EvCall (JsObject h) "isWritable" []]) ++ [EvWait]))
        as (pl' & evs & Hrun & Hidle).
      { by rewrite <- Nat.add_succ_comm in Hw. }
      rewrite Hrun.
      exists pl', ([EvCall (JsObject h) "isWritable" []; EvWait] ++ evs).
      split.
      * by rewrite <- !app_assoc.
      * done.
Qed.

Lemma waitUntilUnpaused_playing (writable : nat -> bool) (j : nat) :
  forall c r h vol er heap nx pl tr,
    writable (pl + j) = true ->
    exists pl' evs,
      waitUntilUnpaused writable j
        (mkWorld (mkPlayer c r (JsObject h) playerStatePlaying vol er)
                 heap nx pl tr) =
      Some (Ret true,
            mkWorld (mkPlayer c r (JsObject h) playerStatePlaying vol er)
                    heap nx pl' (tr ++ evs)) /\
      forallb idle evs = true.
Proof.
  intros c r h vol er heap nx pl tr Hw.
  destruct (waiting_playing writable j c r h vol er heap nx pl
              (tr ++ [EvLock]) Hw) as (pl' & evs & Hrun & Hidle).
  unfold waitUntilUnpaused. unfold bindF at 1, lift at 1. unfold_methods.
  unfold bindF at 1. rewrite Hrun. unfold lift. unfold_methods.
  exists pl', ([EvLock] ++ evs ++ [EvUnlock]). split.
  - by rewrite <- !app_assoc.
  - rewrite !forallb_app, Hidle. done.
Qed.

(** ** The streaming task: data *)

Lemma CopyBytesToJS_length (dst src : list byte) :
  length (CopyBytesToJS dst src) = length dst.
Proof.
  unfold CopyBytesToJS.
  rewrite length_app, length_take, length_drop. lia.
Qed.

(** What the sink takes from the array is the slice that was copied into
    it, as long as the slice fits. *)
Lemma CopyBytesToJS_take (dst src : list byte) :
  length src <= length dst ->
  take (length src) (CopyBytesToJS dst src) = src.
Proof.
  intros Hle. unfold CopyBytesToJS.
  rewrite Nat.min_r by done.
  rewrite firstn_all. apply take_app_length.
Qed.

Lemma written_app (h : nat) (a b : list event) :
  written h (a ++ b) = written h a ++ written h b.
Proof. apply flat_map_app. Qed.

Lemma closeFlags_app (a b : list event) :
  closeFlags (a ++ b) = closeFlags a ++ closeFlags b.
Proof. apply flat_map_app. Qed.

Lemma idle_not_go (evs : list event) :
  forallb idle evs = true -> List.filter is_go evs = [].
Proof.
  induction evs as [|e evs IH]; [done|].
  cbn [forallb List.filter]. intros [He Hr]%andb_prop.
  rewrite (IH Hr). by destruct e.
Qed.

Lemma streamed_idle (h : nat) (evs : list event) :
  forallb idle evs = true -> streamed h [] [] evs.
Proof.
  intros H. destruct (idle_silent _ H) as (W & C & F).
  repeat split; auto using idle_not_go.
Qed.

Lemma streamed_app (h : nat) d1 d2 f1 f2 (e1 e2 : list event) :
  streamed h d1 f1 e1 -> streamed h d2 f2 e2 ->
  streamed h (d1 ++ d2) (f1 ++ f2) (e1 ++ e2).
Proof.
  intros (W1 & O1 & F1 & C1 & G1) (W2 & O2 & F2 & C2 & G2).
  repeat split.
  - by rewrite written_app, W1, W2.
  - intros h' Hh. by rewrite written_app, O1, O2.
  - by rewrite closeFlags_app, F1, F2.
  - by rewrite List.filter_app, C1, C2.
  - by rewrite List.filter_app, G1, G2.
Qed.

Lemma streamed_write (h : nat) (dst : list byte) (n : nat) :
  streamed h (take n dst) []
    [EvLock; EvCall (JsObject h) "write" [ArgBytes dst; ArgInt n]; EvUnlock].
Proof.
  repeat split.
  - cbn. rewrite Nat.eqb_refl. cbn. apply app_nil_r.
  - intros h' Hh. cbn.
    destruct (Nat.eqb_spec h h'); [congruence|done].
Qed.

Lemma streamed_close (h : nat) (evs : list event) (b : bool) :
  forallb idle evs = true ->
  streamed h [] [b] (EvCall (JsObject h) "close" [ArgBool b] :: evs).
Proof.
  intros H. destruct (streamed_idle h _ H) as (W & O & F & C & G).
  repeat split; cbn.
  - apply W.
  - intros h' Hh. by apply O.
  - unfold closeFlags in F. by rewrite F.
  - done.
  - done.
Qed.

Lemma streamed_read (h n : nat) (e : option error) :
  streamed h [] [] [EvRead n e].
Proof. by repeat split. Qed.

Lemma streamed_app' (h : nat) d d1 d2 f f1 f2 (e1 e2 : list event) :
  streamed h d1 f1 e1 -> streamed h d2 f2 e2 ->
  d = d1 ++ d2 -> f = f1 ++ f2 ->
  streamed h d f (e1 ++ e2).
Proof. intros H1 H2 -> ->. by apply streamed_app. Qed.

(** [if n > 0 { p.write(dst, buf[:n]) }] on a playing player. *)
Lemma write_if_playing (chunk dst : list byte) c r h vol er heap nx pl tr :
  length dst = size -> length chunk <= size ->
  exists dst' evs,
    (if Nat.ltb 0 (length chunk) then write dst chunk else ret dst)
      (mkWorld (mkPlayer c r (JsObject h) playerStatePlaying vol er)
               heap nx pl tr) =
    (Ret dst',
     mkWorld (mkPlayer c r (JsObject h) playerStatePlaying vol er)
             heap nx pl (tr ++ evs)) /\
    length dst' = size /\
    streamed h chunk [] evs.
Proof.
  intros Hdst Hchunk. destruct chunk as [|b chunk].
  - exists dst, []. cbn. by rewrite app_nil_r.
  - exists (CopyBytesToJS dst (b :: chunk)),
      [EvLock;
       EvCall (JsObject h) "write"
         [ArgBytes (CopyBytesToJS dst (b :: chunk)); ArgInt (length (b :: chunk))];
       EvUnlock].
    change (Nat.ltb 0 (length (b :: chunk))) with true. cbv iota.
    split; [|split].
    + unfold_methods. by rewrite <- !app_assoc.
    + by rewrite CopyBytesToJS_length.
    + rewrite <- (CopyBytesToJS_take dst (b :: chunk)) at 1 by lia.
      apply streamed_write.
Qed.

(** The soft close that ends a run at the end of the stream. *)
Lemma close_false_playing c r h vol er heap nx pl tr :
  (close false ;;; ret tt)
    (mkWorld (mkPlayer c r (JsObject h) playerStatePlaying vol er)
             heap nx pl tr) =
  (Ret tt,
   mkWorld (mkPlayer c r JsUndefined playerStatePaused vol er) heap nx pl
     (tr ++ [EvLock; EvCall (JsObject h) "close" [ArgBool false];
             EvSignal; EvUnlock])).
Proof. unfold_methods. by rewrite <- !app_assoc. Qed.

(** A run of the task over a source that yields [data] and ends: started
    on a playing player with the handle [h], it returns, having written
    [data] to [h] and closed it softly. *)
Lemma loop_from_yields (writable : nat -> bool) :
  eventually_writable writable ->
  forall r data, yields r data ->
  forall c h vol er heap nx pl tr dst,
    length dst = size ->
    exists fuel pl' r' evs,
      loop_from writable fuel dst
        (mkWorld (mkPlayer c r (JsObject h) playerStatePlaying vol er)
                 heap nx pl tr) =
      Some (Ret tt,
            mkWorld (mkPlayer c r' JsUndefined playerStatePaused vol er)
                    heap nx pl' (tr ++ evs)) /\
      streamed h data [false] evs.
Proof.
  intros fair r data Hy.
  induction Hy as [|chunk rest Hlen|chunk r data Hlen Hy IH];
    intros c h vol er heap nx pl tr dst Hdst;
    destruct (fair pl) as [j Hj].
  - destruct (waitUntilUnpaused_playing writable j c [] h vol er heap nx pl tr Hj)
      as (pl1 & evs1 & Hwait & Hidle).
    exists (S j), pl1, [],
      (evs1 ++ [EvRead 0 (Some EOF)] ++ [EvLock] ++
       EvCall (JsObject h) "close" [ArgBool false] :: [EvSignal; EvUnlock]).
    split.
    + rewrite loop_from_unfold, Hwait. unfold_methods.
      cbn [fatal is_eof length Nat.ltb Nat.leb]. unfold_methods.
      by rewrite <- !app_assoc.
    + eapply streamed_app'; [by apply streamed_idle| |done..].
      eapply streamed_app'; [apply streamed_read| |done..].
      eapply streamed_app'; [by apply (streamed_idle h [_])| |done..].
      by apply streamed_close.
  - destruct (waitUntilUnpaused_playing writable j c ((chunk, Some EOF) :: rest)
                h vol er heap nx pl tr Hj)
      as (pl1 & evs1 & Hwait & Hidle).
    destruct (write_if_playing chunk dst c rest h vol er heap nx pl1
                ((tr ++ evs1) ++ [EvRead (length chunk) (Some EOF)]) Hdst Hlen)
      as (dst' & evsW & Hwrite & Hdst' & HW).
    exists (S j), pl1, rest,
      (evs1 ++ [EvRead (length chunk) (Some EOF)] ++ evsW ++ [EvLock] ++
       EvCall (JsObject h) "close" [ArgBool false] :: [EvSignal; EvUnlock]).
    split.
    + rewrite loop_from_unfold, Hwait.
      change (Read _) with
        (Ret (chunk, Some EOF),
         mkWorld (mkPlayer c rest (JsObject h) playerStatePlaying vol er)
           heap nx pl1 ((tr ++ evs1) ++ [EvRead (length chunk) (Some EOF)])).
      cbv iota beta. cbn [fatal is_eof]. rewrite Hwrite.
      rewrite close_false_playing. by rewrite <- !app_assoc.
    + eapply streamed_app'; [by apply streamed_idle| |done..].
      eapply streamed_app'; [apply streamed_read| |done..].
      eapply streamed_app'; [exact HW| |by rewrite app_nil_r|done].
      eapply streamed_app'; [by apply (streamed_idle h [_])| |done..].
      by apply streamed_close.
  - destruct (waitUntilUnpaused_playing writable j c ((chunk, None) :: r)
                h vol er heap nx pl tr Hj)
      as (pl1 & evs1 & Hwait & Hidle).
    destruct (write_if_playing chunk dst c r h vol er heap nx pl1
                ((tr ++ evs1) ++ [EvRead (length chunk) None]) Hdst Hlen)
      as (dst' & evsW & Hwrite & Hdst' & HW).
    destruct (IH c h vol er heap nx pl1
                (((tr ++ evs1) ++ [EvRead (length chunk) None]) ++ evsW)
                dst' Hdst')
      as (fuel2 & pl' & r' & evs2 & Hloop & Hrest).
    exists (S (Nat.max j fuel2)), pl', r',
      (evs1 ++ [EvRead (length chunk) None] ++ evsW ++ evs2).
    split.
    + rewrite loop_from_unfold.
      rewrite (waitUntilUnpaused_mono _ j _ _ _ Hwait) by lia.
      change (Read _) with
        (Ret (chunk, @None error),
         mkWorld (mkPlayer c r (JsObject h) playerStatePlaying vol er)
           heap nx pl1 ((tr ++ evs1) ++ [EvRead (length chunk) None])).
      cbv iota beta. cbn [fatal is_eof]. rewrite Hwrite.
      rewrite (loop_from_mono _ fuel2 _ _ _ _ (Nat.le_max_r _ _) Hloop).
      by rewrite <- !app_assoc.
    + eapply streamed_app'; [by apply streamed_idle| |done..].
      eapply streamed_app'; [apply streamed_read| |done..].
      eapply streamed_app'; [exact HW|exact Hrest|done..].
Qed.

(** C2: on a player that is not closed and has no handle, over a source
    that yields the bytes [data] and then the end of the stream, and with
    a sink that does not refuse data for ever, [Play] followed by the task
    it starts runs to completion; the handle that [Play] allocated has
    then received exactly [data], in order, no other handle has received
    anything, the player is paused and has no handle.  Every run that
    completes ends in that same world. *)
Theorem stream_reaches_sink (writable : nat -> bool) (w : World)
    (data : list byte) (ctx : nat) :
  eventually_writable writable ->
  yields (src (player w)) data ->
  v (player w) = JsUndefined ->
  state (player w) <> playerStateClosed ->
  cv (context (player w)) = JsObject ctx ->
  exists fuel w',
    PlayAndLoop writable fuel w = Some (Ret tt, w') /\
    written (jsNext w) (emitted w w') = data /\
    (forall h', h' <> jsNext w -> written h' (emitted w w') = []) /\
    state (player w') = playerStatePaused /\
    v (player w') = JsUndefined /\
    err (player w') = err (player w) /\
    List.filter is_go (emitted w w') = [EvGo] /\
    closeFlags (emitted w w') = [false] /\
    forall fuel' x, PlayAndLoop writable fuel' w = Some x -> x = (Ret tt, w').
Proof.
  destruct w as [[[cx] r h st vol er] heap nx pl tr].
  cbn [player src v state context cv jsNext err].
  intros fair Hy -> Hst ->.
  assert (exists w1 : World,
    Play (mkWorld (mkPlayer (mkContext (JsObject ctx)) r JsUndefined st vol er)
            heap nx pl tr) =
    (Ret tt, w1) /\
    w1 = mkWorld (mkPlayer (mkContext (JsObject ctx)) r (JsObject nx)
                    playerStatePlaying vol er)
           (<[nx := vol]> heap) (S nx) pl
           (tr ++ [EvLock; EvCall (JsObject ctx) "createPlayer" [ArgFunc];
                   EvSet (JsObject nx) "volume" (ArgFloat vol); EvGo;
                   EvCall (JsObject nx) "play" []; EvSignal; EvUnlock]))
    as (w1 & HPlay & Hw1).
  { eexists. split; [|reflexivity].
    destruct st; [| |done]; unfold_methods; by rewrite <- !app_assoc. }
  destruct (loop_from_yields writable fair r data Hy
              (mkContext (JsObject ctx)) nx vol er (<[nx := vol]> heap) (S nx) pl
              (tr ++ [EvLock; EvCall (JsObject ctx) "createPlayer" [ArgFunc];
                      EvSet (JsObject nx) "volume" (ArgFloat vol); EvGo;
                      EvCall (JsObject nx) "play" []; EvSignal; EvUnlock])
              (replicate size Byte.x00) (length_replicate _ _))
    as (fuel & pl' & r' & evs & Hloop & HW & HO & HF & HC & HG).
  rewrite <- Hw1 in Hloop.
  assert (Hrun : PlayAndLoop writable fuel
            (mkWorld (mkPlayer (mkContext (JsObject ctx)) r JsUndefined st vol er)
               heap nx pl tr) =
          loop_from writable fuel (replicate size Byte.x00) w1).
  { unfold PlayAndLoop, bindF, lift. by rewrite HPlay. }
  eexists fuel, _. split; [by rewrite Hrun, Hloop|].
  unfold emitted. cbn [trace player state v err].
  rewrite <- app_assoc, drop_app_length.
  rewrite !written_app, closeFlags_app, List.filter_app, HW, HF, HG.
  repeat split; try done.
  intros fuel' x. unfold PlayAndLoop, bindF, lift. rewrite HPlay.
  intros Hx. unfold loop in Hx.
  rewrite app_assoc.
  apply (loop_from_agree _ _ _ _ _ _ _ Hx Hloop).
Qed.

(** ** The streaming task: a failing read *)

(** The round in which [Read] fails with an error other than [io.EOF]. *)
Lemma loop_from_fatal (writable : nat -> bool) :
  eventually_writable writable ->
  forall chunk msg rest c h vol er heap nx pl tr dst,
    exists fuel pl' evs,
      loop_from writable fuel dst
        (mkWorld (mkPlayer c ((chunk, Some (ErrOther msg)) :: rest) (JsObject h)
                    playerStatePlaying vol er)
                 heap nx pl tr) =
      Some (Ret tt,
            mkWorld (mkPlayer c rest JsUndefined playerStateClosed vol
                       (Some (ErrOther msg)))
                    heap nx pl'
                    (tr ++ evs ++
                     [EvRead (length chunk) (Some (ErrOther msg)); EvLock;
                      EvCall (JsObject h) "close" [ArgBool true];
                      EvSignal; EvUnlock])) /\
      forallb idle evs = true.
Proof.
  intros fair chunk msg rest c h vol er heap nx pl tr dst.
  destruct (fair pl) as [j Hj].
  destruct (waitUntilUnpaused_playing writable j c
              ((chunk, Some (ErrOther msg)) :: rest) h vol er heap nx pl tr Hj)
    as (pl1 & evs1 & Hwait & Hidle).
  exists (S j), pl1, evs1. split; [|done].
  rewrite loop_from_unfold, Hwait. unfold_methods.
  cbn [fatal]. unfold_methods. by rewrite <- !app_assoc.
Qed.

Lemma idle_filters (evs : list event) :
  forallb idle evs = true ->
  List.filter is_read evs = [] /\ List.filter is_write evs = [].
Proof.
  induction evs as [|e evs IH]; [done|].
  cbn [forallb List.filter]. intros [He Hr]%andb_prop.
  destruct (IH Hr) as [-> ->].
  destruct e as [| | | | |recv m args| | | | |]; try done.
  destruct args; [|done]. cbn in He.
  apply String.eqb_eq in He as ->. done.
Qed.

(** C10: when a read delivers [n > 0] bytes together with an error other
    than [io.EOF], the task records the error and returns; no [write] is
    called on any handle, although the bytes have left the source. *)
Theorem fatal_read_drops_data (writable : nat -> bool) (w : World) (h : nat)
    (chunk : list byte) (msg : string) (rest : Reader) (dst : list byte) :
  eventually_writable writable ->
  v (player w) = JsObject h ->
  state (player w) = playerStatePlaying ->
  src (player w) = (chunk, Some (ErrOther msg)) :: rest ->
  0 < length chunk ->
  exists fuel w',
    loop_from writable fuel dst w = Some (Ret tt, w') /\
    List.filter is_write (emitted w w') = [] /\
    (forall h', written h' (emitted w w') = []) /\
    src (player w') = rest /\
    err (player w') = Some (ErrOther msg) /\
    state (player w') = playerStateClosed /\
    forall fuel' x, loop_from writable fuel' dst w = Some x -> x = (Ret tt, w').
Proof.
  destruct w as [[c r h0 st vol er] heap nx pl tr].
  cbn [player src v state].
  intros fair -> -> -> _.
  destruct (loop_from_fatal writable fair chunk msg rest c h vol er heap nx pl
              tr dst) as (fuel & pl' & evs & Hloop & Hidle).
  destruct (idle_filters _ Hidle) as [_ HW].
  destruct (idle_silent _ Hidle) as (HS & _ & _).
  eexists fuel, _. split; [exact Hloop|].
  unfold emitted. cbn [trace player src err state].
  rewrite drop_app_length.
  repeat split.
  - by rewrite List.filter_app, HW.
  - intros h'. by rewrite written_app, HS.
  - intros fuel' x Hx. apply (loop_from_agree _ _ _ _ _ _ _ Hx Hloop).
Qed.

(** On a closed player without a handle the exported methods leave the
    fields alone and return normally; [Close] returns the recorded error. *)
Lemma public_closed (c : call) (w : World) :
  public c = true ->
  state (player w) = playerStateClosed ->
  v (player w) = JsUndefined ->
  player (exec (perform c) w) = player w /\
  fst (perform c w) =
    Ret (match c with
         | CallClose => VError (err (player w))
         | CallVolume => VFloat (volume (player w))
         | _ => VNone
         end).
Proof.
  destruct w as [[[cx] r h st vol er] heap nx pl tr]. cbn.
  intros Hc -> ->. destruct c; done.
Qed.

Lemma run_public_closed (cs : list call) (w : World) :
  forallb public cs = true ->
  state (player w) = playerStateClosed ->
  v (player w) = JsUndefined ->
  player (run cs w) = player w.
Proof.
  revert w. induction cs as [|c cs IH]; intros w Hcs Hst Hv; [done|].
  cbn [forallb] in Hcs. apply andb_prop in Hcs as [Hc Hcs].
  destruct (public_closed c w Hc Hst Hv) as [Hp _].
  change (run (c :: cs) w) with (run cs (exec (perform c) w)).
  rewrite IH; by rewrite ?Hp.
Qed.

(** [Close] on a closed player returns the recorded error at once. *)
Lemma Close_closed (w : World) :
  state (player w) = playerStateClosed ->
  fst (Close w) = Ret (err (player w)) /\
  player (exec Close w) = player w.
Proof.
  destruct w as [[[cx] r h st vol er] heap nx pl tr]. cbn.
  intros ->. done.
Qed.

(** The exported methods keep a closed player closed and its error in
    place, with or without a handle. *)
Lemma public_keeps_error (c : call) (w : World) :
  public c = true ->
  state (player w) = playerStateClosed ->
  state (player (exec (perform c) w)) = playerStateClosed /\
  err (player (exec (perform c) w)) = err (player w).
Proof.
  destruct w as [[[cx] r h st vol er] heap nx pl tr]. cbn.
  intros Hc ->.
  destruct c; try done; destruct h;
    unfold_methods; try destruct (heap !! _); done.
Qed.

Lemma run_public_keeps_error (cs : list call) (w : World) :
  forallb public cs = true ->
  state (player w) = playerStateClosed ->
  state (player (run cs w)) = playerStateClosed /\
  err (player (run cs w)) = err (player w).
Proof.
  revert w. induction cs as [|c cs IH]; intros w Hcs Hst; [done|].
  cbn [forallb] in Hcs. apply andb_prop in Hcs as [Hc Hcs].
  destruct (public_keeps_error c w Hc Hst) as [Hs He].
  change (run (c :: cs) w) with (run cs (exec (perform c) w)).
  destruct (IH _ Hcs Hs) as [Hs' He'].
  by rewrite Hs', He', He.
Qed.

(** C3: a read that fails with an error [e] other than [io.EOF] makes the
    task record [e] and close the player for good; the task returns
    without reading again.  Whatever exported methods are called
    afterwards, they return normally, [Close] among them, and [Close]
    returns [e] every time.  The same holds from whatever world
    [setError e] is called in. *)
Theorem read_failure_is_recorded (writable : nat -> bool) (w : World) (h : nat)
    (chunk : list byte) (msg : string) (rest : Reader) (dst : list byte) :
  eventually_writable writable ->
  v (player w) = JsObject h ->
  state (player w) = playerStatePlaying ->
  src (player w) = (chunk, Some (ErrOther msg)) :: rest ->
  (exists fuel w',
    loop_from writable fuel dst w = Some (Ret tt, w') /\
    err (player w') = Some (ErrOther msg) /\
    state (player w') = playerStateClosed /\
    v (player w') = JsUndefined /\
    closeFlags (emitted w w') = [true] /\
    List.filter is_read (emitted w w') =
      [EvRead (length chunk) (Some (ErrOther msg))] /\
    src (player w') = rest /\
    forall cs, forallb public cs = true ->
      player (run cs w') = player w' /\
      fst (Close (run cs w')) = Ret (Some (ErrOther msg)) /\
      fst (Close (exec Close (run cs w'))) = Ret (Some (ErrOther msg)) /\
      forall c, public c = true ->
        fst (perform c (run cs w')) =
          Ret (match c with
               | CallClose => VError (Some (ErrOther msg))
               | CallVolume => VFloat (volume (player w))
               | _ => VNone
               end)) /\
  (forall w0 cs, forallb public cs = true ->
     state (player (run cs (exec (setError (ErrOther msg)) w0))) =
       playerStateClosed /\
     fst (Close (run cs (exec (setError (ErrOther msg)) w0))) =
       Ret (Some (ErrOther msg))).
Proof.
  destruct w as [[c r h0 st vol er] heap nx pl tr].
  cbn [player src v state volume].
  intros fair -> -> ->. split.
  - destruct (loop_from_fatal writable fair chunk msg rest c h vol er heap nx pl
                tr dst) as (fuel & pl' & evs & Hloop & Hidle).
    destruct (idle_filters _ Hidle) as [HR _].
    destruct (idle_silent _ Hidle) as (_ & _ & HF).
    eexists fuel, _. split; [exact Hloop|].
    set (w' := mkWorld _ _ _ _ _).
    assert (Hst : state (player w') = playerStateClosed) by done.
    assert (Hv : v (player w') = JsUndefined) by done.
    split; [done|]. split; [done|]. split; [done|].
    split; [|split; [|split; [done|]]].
    + unfold emitted, w'. cbn [trace].
      by rewrite drop_app_length, closeFlags_app, HF.
    + unfold emitted, w'. cbn [trace].
      by rewrite drop_app_length, List.filter_app, HR.
    + intros cs Hcs.
      assert (Hp : player (run cs w') = player w')
        by by apply run_public_closed.
      assert (Hst1 : state (player (run cs w')) = playerStateClosed)
        by by rewrite Hp.
      destruct (Close_closed _ Hst1) as [Hc1 Hp1].
      assert (Hst2 : state (player (exec Close (run cs w'))) = playerStateClosed)
        by by rewrite Hp1.
      destruct (Close_closed _ Hst2) as [Hc2 _].
      split; [exact Hp|]. split; [by rewrite Hc1, Hp|].
      split; [by rewrite Hc2, Hp1, Hp|].
      intros c0 Hc0.
      destruct (public_closed c0 (run cs w') Hc0) as [_ Hr];
        try by rewrite Hp.
      rewrite Hr, Hp. by destruct c0.
  - intros w0 cs Hcs.
    assert (Hst : state (player (exec (setError (ErrOther msg)) w0)) =
                  playerStateClosed /\
                  err (player (exec (setError (ErrOther msg)) w0)) =
                  Some (ErrOther msg)).
    { destruct w0 as [[[cx] r0 [|h1] st0 vol0 er0] heap0 nx0 pl0 tr0];
        by destruct st0. }
    destruct Hst as [Hst He].
    destruct (run_public_keeps_error cs _ Hcs Hst) as [Hs' He'].
    destruct (Close_closed _ Hs') as [Hc _].
    split; [exact Hs'|]. by rewrite Hc, He', He.
Qed.

(** ** The properties on sample runs *)

Lemma every_other_fair : eventually_writable every_other.
Proof.
  intros k. unfold every_other.
  destruct (Nat.odd k) eqn:E.
  - exists 0. by rewrite Nat.add_0_r.
  - exists 1. by rewrite Nat.add_1_r, Nat.odd_succ, <- Nat.negb_odd, E.
Qed.

(** C1 on a run: after [Play] and [Close] the player is closed, and it is
    still closed after six more calls. *)
Lemma closed_is_terminal_witness :
  state (player (run [CallPlay; CallClose] (initial three_bytes))) =
    playerStateClosed /\
  state (player (run ([CallPlay; CallClose] ++
                      [CallPlay; CallSetVolume float64_half; CallPause; CallReset;
                       CallsetError EOF; Callclose false])
                     (initial three_bytes))) = playerStateClosed.
Proof.
  destruct (closed_is_terminal [CallPlay; CallClose]
              [CallPlay; CallSetVolume float64_half; CallPause; CallReset;
               CallsetError EOF; Callclose false]
              (initial three_bytes) eq_refl) as (H & _).
  split; [reflexivity|exact H].
Defined.

(** C5 on a playing player (no task started) and on a fresh one (one task
    started). *)
Lemma Play_allocates_once_witness :
  (Truthy (v (player playing)) = true /\
   List.filter is_go (emitted playing (exec Play playing)) = []) /\
  (Truthy (v (player (initial three_bytes))) = false /\
   state (player (initial three_bytes)) <> playerStateClosed /\
   cv (context (player (initial three_bytes))) = JsObject 0 /\
   List.filter is_go
     (emitted (initial three_bytes) (exec Play (initial three_bytes))) = [EvGo]).
Proof.
  split.
  - split; [reflexivity|].
    destruct (Play_allocates_once playing) as (H1 & _ & _).
    apply H1. reflexivity.
  - split; [reflexivity|]. split; [discriminate|]. split; [reflexivity|].
    destruct (Play_allocates_once (initial three_bytes)) as (_ & _ & H3).
    apply (H3 0); [reflexivity|discriminate|reflexivity].
Defined.

(** C4 as stated fails: [Close] on a playing player with the handle [1]
    never calls [close] with [true] on it; the one [close] call it makes
    carries [false]. *)
Lemma Close_discard_pending_counterexample :
  v (player playing) = JsObject 1 /\
  state (player playing) = playerStatePlaying /\
  ~ In (EvCall (JsObject 1) "close" [ArgBool true])
       (emitted playing (exec Close playing)) /\
  closeFlags (emitted playing (exec Close playing)) = [false].
Proof.
  repeat split; try reflexivity.
  vm_compute. intros H. repeat destruct H as [H|H]; try discriminate H. exact H.
Qed.

(** C4, as the code has it, on the playing player. *)
Lemma close_passes_false_witness :
  v (player playing) = JsObject 1 /\
  state (player playing) <> playerStateClosed /\
  closeFlags (emitted playing (exec Close playing)) = [false].
Proof.
  assert (Hst : state (player playing) <> playerStateClosed) by discriminate.
  destruct (close_passes_false true playing 1 eq_refl Hst)
    as (_ & _ & H & _).
  split; [reflexivity|]. split; [exact Hst|exact H].
Defined.

(** C9 on a fresh player. *)
Lemma close_calls_absent_handle_witness :
  state (player (initial three_bytes)) <> playerStateClosed /\
  v (player (initial three_bytes)) = JsUndefined /\
  emitted (initial three_bytes) (exec Close (initial three_bytes)) =
    [EvSetFinalizer false; EvLock;
     EvCall JsUndefined "close" [ArgBool false]; EvUnlock].
Proof.
  assert (Hst : state (player (initial three_bytes)) <> playerStateClosed)
    by discriminate.
  destruct (close_calls_absent_handle true (initial three_bytes) Hst eq_refl)
    as (_ & H & _).
  split; [exact Hst|]. split; [reflexivity|exact H].
Defined.

(** C6 on a fresh player (the cache keeps the value [1]) and on a playing
    one (the cache takes the new value). *)
Lemma SetVolume_without_handle_witness :
  v (player (initial three_bytes)) = JsUndefined /\
  state (player (initial three_bytes)) <> playerStateClosed /\
  cv (context (player (initial three_bytes))) = JsObject 0 /\
  SetVolume float64_half (initial three_bytes) = (Ret tt, initial three_bytes) /\
  fst (Volume (exec Play (exec (SetVolume float64_half) (initial three_bytes)))) =
    Ret float64_one /\
  v (player playing) = JsObject 1 /\
  volume (player (exec (SetVolume float64_half) playing)) = float64_half.
Proof.
  destruct (SetVolume_without_handle float64_half (initial three_bytes))
    as (H1 & _ & _).
  destruct (H1 eq_refl) as (Ha & _ & Hb).
  destruct (SetVolume_without_handle float64_half playing) as (_ & H2 & _).
  split; [reflexivity|]. split; [discriminate|]. split; [reflexivity|].
  split; [exact Ha|]. split.
  - apply (Hb 0); [discriminate|reflexivity].
  - split; [reflexivity|]. apply (H2 1). reflexivity.
Defined.

(** C7 as stated fails: a second [setError] replaces the error recorded by
    the first, and [Close] returns the second. *)
Lemma first_error_wins_counterexample :
  err (player failed_once) = Some (ErrOther "first") /\
  err (player (exec (setError (ErrOther "second")) failed_once)) <>
    Some (ErrOther "first") /\
  fst (Close (exec (setError (ErrOther "second")) failed_once)) =
    Ret (Some (ErrOther "second")).
Proof. repeat split; try reflexivity. discriminate. Qed.

(** C7, as the code has it, on a player that has recorded an error. *)
Lemma setError_overwrites_witness :
  public CallPlay = true /\
  err (player (exec (setError (ErrOther "second")) failed_once)) =
    Some (ErrOther "second") /\
  err (player (exec (perform CallPlay) failed_once)) = err (player failed_once).
Proof.
  destruct (setError_overwrites (ErrOther "second") failed_once)
    as (H1 & _ & _ & H4).
  split; [reflexivity|]. split; [exact H1|].
  apply H4. reflexivity.
Defined.

Lemma three_bytes_yields : yields three_bytes [Byte.x01; Byte.x02; Byte.x03].
Proof.
  apply (yields_more [Byte.x01; Byte.x02] _ [Byte.x03]).
  - unfold size. cbn. lia.
  - apply yields_eof. unfold size. cbn. lia.
Qed.

(** C2 on the source [three_bytes] and a sink that accepts data at every
    second request. *)
Lemma stream_reaches_sink_witness :
  eventually_writable every_other /\
  yields (src (player (initial three_bytes))) [Byte.x01; Byte.x02; Byte.x03] /\
  v (player (initial three_bytes)) = JsUndefined /\
  state (player (initial three_bytes)) <> playerStateClosed /\
  cv (context (player (initial three_bytes))) = JsObject 0 /\
  exists fuel w',
    PlayAndLoop every_other fuel (initial three_bytes) = Some (Ret tt, w') /\
    written 1 (emitted (initial three_bytes) w') =
      [Byte.x01; Byte.x02; Byte.x03] /\
    state (player w') = playerStatePaused /\
    v (player w') = JsUndefined.
Proof.
  assert (Hst : state (player (initial three_bytes)) <> playerStateClosed)
    by discriminate.
  destruct (stream_reaches_sink every_other (initial three_bytes)
              [Byte.x01; Byte.x02; Byte.x03] 0
              every_other_fair three_bytes_yields eq_refl Hst eq_refl)
    as (fuel & w' & Hrun & Hdata & _ & Hs & Hv & _).
  split; [exact every_other_fair|]. split; [exact three_bytes_yields|].
  split; [reflexivity|]. split; [exact Hst|]. split; [reflexivity|].
  exists fuel, w'. split; [exact Hrun|]. split; [exact Hdata|].
  split; [exact Hs|exact Hv].
Defined.

(** C10 on a read that delivers one byte and fails. *)
Lemma fatal_read_drops_data_witness :
  eventually_writable every_other /\
  v (player playing_failing) = JsObject 1 /\
  state (player playing_failing) = playerStatePlaying /\
  src (player playing_failing) =
    ([Byte.x03], Some (ErrOther "read failed")) :: [] /\
  0 < length [Byte.x03] /\
  exists fuel w',
    loop every_other fuel playing_failing = Some (Ret tt, w') /\
    List.filter is_write (emitted playing_failing w') = [] /\
    err (player w') = Some (ErrOther "read failed").
Proof.
  assert (Hn : 0 < length [Byte.x03]) by (cbn; lia).
  destruct (fatal_read_drops_data every_other playing_failing 1 [Byte.x03]
              "read failed" [] (replicate size Byte.x00)
              every_other_fair eq_refl eq_refl eq_refl Hn)
    as (fuel & w' & Hrun & Hw & _ & _ & He & _).
  split; [exact every_other_fair|]. split; [reflexivity|].
  split; [reflexivity|]. split; [reflexivity|]. split; [exact Hn|].
  exists fuel, w'. split; [exact Hrun|]. split; [exact Hw|exact He].
Defined.

(** C3 on a read that fails, followed by [Play], [Close] and [Pause]. *)
Lemma read_failure_is_recorded_witness :
  eventually_writable every_other /\
  v (player playing_failing) = JsObject 1 /\
  state (player playing_failing) = playerStatePlaying /\
  src (player playing_failing) =
    ([Byte.x03], Some (ErrOther "read failed")) :: [] /\
  exists fuel w',
    loop every_other fuel playing_failing = Some (Ret tt, w') /\
    state (player w') = playerStateClosed /\
    forallb public [CallPlay; CallClose; CallPause] = true /\
    fst (Close (run [CallPlay; CallClose; CallPause] w')) =
      Ret (Some (ErrOther "read failed")).
Proof.
  destruct (read_failure_is_recorded every_other playing_failing 1 [Byte.x03]
              "read failed" [] (replicate size Byte.x00)
              every_other_fair eq_refl eq_refl eq_refl)
    as ((fuel & w' & Hrun & _ & Hs & _ & _ & _ & _ & Hafter) & _).
  destruct (Hafter [CallPlay; CallClose; CallPause] eq_refl) as (_ & Hc & _).
  split; [exact every_other_fair|]. split; [reflexivity|].
  split; [reflexivity|]. split; [reflexivity|].
  exists fuel, w'. split; [exact Hrun|]. split; [exact Hs|].
  split; [reflexivity|exact Hc].
Defined.

(** ** Two scenarios, evaluated *)

(** A paused player over [0x01, 0x02, 0x03, EOF]: after [Play] and the
    task, three bytes have been written in order and the player is paused
    without a handle. *)
Example scenario_three_bytes :
  match PlayAndLoop every_other 10 (initial three_bytes) with
  | Some (Ret _, w') =>
      written 1 (trace w') = [Byte.x01; Byte.x02; Byte.x03] /\
      state (player w') = playerStatePaused /\
      v (player w') = JsUndefined
  | _ => False
  end.
Proof. vm_compute. done. Qed.

(** A read that fails after two bytes: the player is closed, [Close]
    returns the error and the handle was closed with [true]. *)
Example scenario_failure_after_two_bytes :
  match PlayAndLoop every_other 10 (initial failing) with
  | Some (Ret _, w') =>
      written 1 (trace w') = [Byte.x01; Byte.x02] /\
      state (player w') = playerStateClosed /\
      closeFlags (trace w') = [true] /\
      fst (Close w') = Ret (Some (ErrOther "read failed"))
  | _ => False
  end.
Proof. vm_compute. done. Qed.

(** ** What every run keeps *)

Lemma created_consistent ctx r heap next polled t :
  consistent (created ctx r heap next polled t).
Proof.
  repeat split; try done. by exists ctx.
Qed.

Lemma perform_consistent (c : call) (w : World) :
  consistent w -> consistent (exec (perform c) w).
Proof.
  destruct w as [[[cx] r h st vol er] heap nx pl tr].
  intros (Hc & Hh & [ctx Hctx]). cbn in Hc, Hh, Hctx. subst cx.
  assert (Hv : forall h', h = JsObject h' ->
            h' < nx /\ heap !! h' = Some vol) by exact Hh.
  clear Hh.
  destruct c; destruct st; destruct h as [|h0]; try destruct remove;
    try (specialize (Hc eq_refl); discriminate Hc);
    try (destruct (Hv h0 eq_refl) as [Hlt Hlk]);
    unfold_methods; rewrite ?Hlk;
    (split; [|split; [|by exists ctx]]); cbn;
    try done;
    try (intros h' [= <-]; rewrite ?lookup_insert_eq; split; [lia|done]).
Qed.

Lemma run_consistent (cs : list call) (w : World) :
  consistent w -> consistent (run cs w).
Proof.
  revert w. induction cs as [|c cs IH]; intros w Hw; [done|].
  change (run (c :: cs) w) with (run cs (exec (perform c) w)).
  by apply IH, perform_consistent.
Qed.

(** X1: in every world that calls of the methods reach from a new player,
    a closed player has no handle, and a handle is an object allocated
    earlier whose [volume] property equals the cached volume. *)
Theorem reachable_worlds_are_consistent ctx r heap next polled t
    (cs : list call) :
  (state (player (run cs (created ctx r heap next polled t))) =
     playerStateClosed ->
   v (player (run cs (created ctx r heap next polled t))) = JsUndefined) /\
  (forall h,
     v (player (run cs (created ctx r heap next polled t))) = JsObject h ->
     h < jsNext (run cs (created ctx r heap next polled t)) /\
     jsVolume (run cs (created ctx r heap next polled t)) !! h =
       Some (volume (player (run cs (created ctx r heap next polled t))))).
Proof.
  destruct (run_consistent cs _ (created_consistent ctx r heap next polled t))
    as (H1 & H2 & _).
  by split.
Qed.

Lemma Volume_consistent (w : World) :
  consistent w -> fst (Volume w) = Ret (volume (player w)).
Proof.
  destruct w as [[[cx] r h st vol er] heap nx pl tr].
  intros (_ & Hh & _). cbn in Hh.
  destruct h as [|h0]; [done|].
  destruct (Hh h0 eq_refl) as [_ Hlk].
  unfold_methods. by rewrite Hlk.
Qed.

(** X2: in every world reached from a new player, [Volume] returns
    normally and its answer is the cached volume, with or without a
    handle. *)
Theorem Volume_returns_cache ctx r heap next polled t (cs : list call) :
  fst (Volume (run cs (created ctx r heap next polled t))) =
  Ret (volume (player (run cs (created ctx r heap next polled t)))).
Proof.
  apply Volume_consistent, run_consistent, created_consistent.
Qed.

Lemma panics_consistent (c : call) (w : World) :
  consistent w ->
  panics (fst (perform c w)) =
    closes c && negb (is_closed (state (player w)))
             && negb (Truthy (v (player w))).
Proof.
  destruct w as [[[cx] r h st vol er] heap nx pl tr].
  intros (_ & Hh & [ctx Hctx]). cbn in Hh, Hctx. subst cx.
  destruct h as [|h0].
  - destruct c, st; try destruct remove; reflexivity.
  - destruct (Hh h0 eq_refl) as [_ Hlk].
    destruct c, st; try destruct remove; unfold_methods; rewrite ?Hlk;
      reflexivity.
Qed.

(** X3: in every world reached from a new player, a call of a method
    panics exactly when it is [Close] (or the internal [close]) on a
    player that is not closed and has no handle; all the others return. *)
Theorem panics_only_in_close ctx r heap next polled t (cs : list call)
    (c : call) :
  panics (fst (perform c (run cs (created ctx r heap next polled t)))) =
    closes c
    && negb (is_closed (state (player (run cs (created ctx r heap next polled t)))))
    && negb (Truthy (v (player (run cs (created ctx r heap next polled t))))).
Proof.
  apply panics_consistent, run_consistent, created_consistent.
Qed.

(** X4: [Close] twice gives what [Close] once gives: the second call
    returns the value of the first (or panics in the same way) and leaves
    the fields as the first left them; when the first returned, the second
    calls nothing on the sink and releases nothing. *)
Theorem Close_is_idempotent (w : World) :
  fst (Close (exec Close w)) = fst (Close w) /\
  player (exec Close (exec Close w)) = player (exec Close w) /\
  (panics (fst (Close w)) = false ->
     emitted (exec Close w) (exec Close (exec Close w)) =
       [EvSetFinalizer false; EvLock; EvUnlock]).
Proof.
  destruct w as [[[cx] r h st vol er] heap nx pl tr].
  destruct st, h; unfold_methods; eval_emitted; done.
Qed.

Lemma perform_release (c : call) (w : World) :
  exists evs,
    trace (exec (perform c) w) = trace w ++ evs /\
    (List.filter is_release evs = [] \/
     List.filter is_release evs = [EvRelease] /\
     state (player w) <> playerStateClosed /\
     state (player (exec (perform c) w)) = playerStateClosed).
Proof.
  destruct w as [[[cx] r h st vol er] heap nx pl tr].
  destruct c; destruct st; destruct h; destruct cx; try destruct remove;
    unfold_methods; try destruct (heap !! _);
    rewrite <- ?app_assoc;
    first [ eexists; split; [reflexivity|]; cbn; by auto
          | exists []; split; [symmetry; apply app_nil_r|by left] ].
Qed.

Lemma perform_closed_release (c : call) (w : World) :
  state (player w) = playerStateClosed ->
  exists evs,
    trace (exec (perform c) w) = trace w ++ evs /\
    List.filter is_release evs = [] /\
    state (player (exec (perform c) w)) = playerStateClosed.
Proof.
  intros Hst.
  destruct (perform_release c w) as (evs & T & [H|(_ & H & _)]); [|done].
  destruct (perform_closed c w Hst) as (evs' & _ & _ & S & _).
  by exists evs.
Qed.

Lemma run_closed_release (cs : list call) (w : World) :
  state (player w) = playerStateClosed ->
  exists evs,
    trace (run cs w) = trace w ++ evs /\ List.filter is_release evs = [].
Proof.
  revert w. induction cs as [|c cs IH]; intros w Hst.
  - exists []. by rewrite app_nil_r.
  - destruct (perform_closed_release c w Hst) as (e1 & T1 & R1 & S1).
    destruct (IH _ S1) as (e2 & T2 & R2).
    exists (e1 ++ e2).
    change (run (c :: cs) w) with (run cs (exec (perform c) w)).
    by rewrite T2, T1, app_assoc, List.filter_app, R1, R2.
Qed.

Lemma run_release (cs : list call) (w : World) :
  exists evs,
    trace (run cs w) = trace w ++ evs /\
    length (List.filter is_release evs) <= 1.
Proof.
  revert w. induction cs as [|c cs IH]; intros w.
  - exists []. rewrite app_nil_r. cbn. split; [done|lia].
  - change (run (c :: cs) w) with (run cs (exec (perform c) w)).
    destruct (perform_release c w) as (e1 & T1 & [R1|(R1 & _ & S1)]).
    + destruct (IH (exec (perform c) w)) as (e2 & T2 & R2).
      exists (e1 ++ e2).
      by rewrite T2, T1, app_assoc, List.filter_app, R1.
    + destruct (run_closed_release cs _ S1) as (e2 & T2 & R2).
      exists (e1 ++ e2).
      rewrite T2, T1, app_assoc, List.filter_app, R1, R2. cbn.
      split; [done|lia].
Qed.

(** X5: along every sequence of calls the callback [onWritten] is
    released at most once, and never once the player is closed: a player
    closed by [setError] keeps its callback for good, later [Close]
    included. *)
Theorem onWritten_released_at_most_once (cs : list call) (w : World) :
  length (List.filter is_release (emitted w (run cs w))) <= 1 /\
  (state (player w) = playerStateClosed ->
     List.filter is_release (emitted w (run cs w)) = []) /\
  (forall e,
     List.filter is_release
       (emitted (exec (setError e) w) (run cs (exec (setError e) w))) = []).
Proof.
  destruct (run_release cs w) as (evs & T & R).
  rewrite (emitted_app _ _ _ T). split; [exact R|]. split.
  - intros Hst.
    destruct (run_closed_release cs w Hst) as (evs' & T' & R').
    rewrite T in T'. by apply app_inv_head in T' as ->.
  - intros e.
    assert (Hst : state (player (exec (setError e) w)) = playerStateClosed).
    { destruct w as [[[cx] r [|h] st vol er] heap nx pl tr]; by destruct st. }
    destruct (run_closed_release cs _ Hst) as (evs' & T' & R').
    by rewrite (emitted_app _ _ _ T').
Qed.

(** X6: a call that changes [state], the handle or the recorded error
    signals the condition before it returns, so that a waiting task looks
    again. *)
Theorem changes_are_signalled (c : call) (w : World) :
  state (player (exec (perform c) w)) <> state (player w) \/
  v (player (exec (perform c) w)) <> v (player w) \/
  err (player (exec (perform c) w)) <> err (player w) ->
  In EvSignal (emitted w (exec (perform c) w)).
Proof.
  destruct w as [[[cx] r h st vol er] heap nx pl tr].
  destruct c; destruct st; destruct h; destruct cx; try destruct remove;
    unfold_methods; try destruct (heap !! _); eval_emitted;
    intros [H|[H|H]]; try done; auto 10.
Qed.

Lemma perform_src (c : call) (w : World) :
  src (player (exec (perform c) w)) = src (player w) /\
  context (player (exec (perform c) w)) = context (player w).
Proof.
  destruct w as [[[cx] r h st vol er] heap nx pl tr].
  destruct c; destruct st; destruct h; destruct cx; try destruct remove;
    unfold_methods; try destruct (heap !! _); done.
Qed.

(** X7: no method of the player reads or rewinds the source, [Reset]
    included: after any sequence of calls the source is where it was. *)
Theorem methods_leave_source (cs : list call) (w : World) :
  src (player (run cs w)) = src (player w) /\
  context (player (run cs w)) = context (player w).
Proof.
  revert w. induction cs as [|c cs IH]; intros w; [done|].
  change (run (c :: cs) w) with (run cs (exec (perform c) w)).
  destruct (IH (exec (perform c) w)) as [-> ->].
  apply perform_src.
Qed.

(** ** The task, whatever the world *)

Lemma disciplined_app (held : bool) (a b : list event) :
  disciplined held (a ++ b) =
  match disciplined held a with
  | Some held' => disciplined held' b
  | None => None
  end.
Proof.
  revert held. induction a as [|e a IH]; intros held; [done|].
  destruct e, held; cbn; by rewrite ?IH.
Qed.

(** What an answer of the wait loop tells. *)
Lemma waiting_sound (writable : nat -> bool) (fuel : nat) :
  forall c r h st vol er heap nx pl tr x w',
    waiting writable fuel
      (mkWorld (mkPlayer c r h st vol er) heap nx pl tr) = Some (x, w') ->
    exists pl' evs,
      x = Ret tt /\
      w' = mkWorld (mkPlayer c r h st vol er) heap nx pl' (tr ++ evs) /\
      forallb idle evs = true /\
      disciplined true evs = Some true /\
      (Truthy h && state_eqb st playerStatePaused = false) /\
      (Truthy h && state_eqb st playerStatePlaying = true ->
         pl < pl' /\ writable (Nat.pred pl') = true) /\
      (Truthy h && state_eqb st playerStatePlaying = false ->
         pl' = pl /\ evs = []).
Proof.
  induction fuel as [|fuel IH]; intros c r h st vol er heap nx pl tr x w';
    rewrite waiting_unfold; unfold bindF at 1, lift at 1;
    unfold mustWait; unfold_methods;
    destruct h as [|h]; cbn [negb];
    try (intros [= <- <-]; exists pl, []; rewrite app_nil_r; by repeat split);
    destruct st; cbn [negb];
    try done;
    try (intros [= <- <-]; exists pl, []; rewrite app_nil_r; by repeat split).
  - destruct (writable pl) eqn:E; cbn [negb]; [|done].
    intros [= <- <-].
    exists (S pl), [EvCall (JsObject h) "isWritable" []].
    repeat split; try done. lia.
  - unfold bindF at 1, lift at 1. unfold_methods.
    intros H. apply IH in H as (pl' & evs & _ & _ & _ & _ & Hp & _).
    done.
  - destruct (writable pl) eqn:E; cbn [negb].
    + intros [= <- <-].
      exists (S pl), [EvCall (JsObject h) "isWritable" []].
      repeat split; try done. lia.
    + unfold bindF at 1, lift at 1. unfold_methods.
      intros H. apply IH in H as (pl' & evs & -> & -> & Hi & Hd & _ & Hw & _).
      destruct (Hw eq_refl) as [Hlt Hwr].
      exists pl', ([EvCall (JsObject h) "isWritable" []; EvWait] ++ evs).
      repeat split; try done.
      * by rewrite <- !app_assoc.
      * lia.
Qed.

Lemma waitUntilUnpaused_sound (writable : nat -> bool) (fuel : nat) :
  forall c r h st vol er heap nx pl tr x w',
    waitUntilUnpaused writable fuel
      (mkWorld (mkPlayer c r h st vol er) heap nx pl tr) = Some (x, w') ->
    exists pl' evs,
      x = Ret (Truthy h && state_eqb st playerStatePlaying) /\
      w' = mkWorld (mkPlayer c r h st vol er) heap nx pl' (tr ++ evs) /\
      disciplined false evs = Some false /\
      forallb idle evs = true /\
      (Truthy h && state_eqb st playerStatePaused = false) /\
      (Truthy h && state_eqb st playerStatePlaying = true ->
         pl < pl' /\ writable (Nat.pred pl') = true) /\
      (Truthy h && state_eqb st playerStatePlaying = false ->
         pl' = pl /\ evs = [EvLock; EvUnlock]).
Proof.
  intros c r h st vol er heap nx pl tr x w'.
  unfold waitUntilUnpaused. unfold bindF at 1, lift at 1. unfold_methods.
  unfold bindF at 1.
  destruct (waiting writable fuel _) as [[y w1]|] eqn:E; [|done].
  apply waiting_sound in E as (pl' & evs & -> & -> & Hi & Hd & Hp & Hw & Hn).
  unfold lift. unfold_methods. intros [= <- <-].
  exists pl', ([EvLock] ++ evs ++ [EvUnlock]).
  repeat split; try done.
  - by rewrite <- !app_assoc.
  - cbn [app disciplined]. by rewrite disciplined_app, Hd.
  - by rewrite !forallb_app, Hi.
  - by destruct (Hw H).
  - by destruct (Hw H).
  - by destruct (Hn H).
  - destruct (Hn H) as [_ ->]. done.
Qed.

Lemma disciplined_cat (a b : list event) :
  disciplined false a = Some false -> disciplined false b = Some false ->
  disciplined false (a ++ b) = Some false.
Proof. intros Ha Hb. by rewrite disciplined_app, Ha. Qed.

(** [if n > 0 { p.write(dst, buf[:n]) }] on a playing player, whatever the
    length of the slice. *)
Lemma write_if_sound (chunk dst : list byte) c r h vol er heap nx pl tr :
  exists dst' evs data,
    (if Nat.ltb 0 (length chunk) then write dst chunk else ret dst)
      (mkWorld (mkPlayer c r (JsObject h) playerStatePlaying vol er)
               heap nx pl tr) =
    (Ret dst',
     mkWorld (mkPlayer c r (JsObject h) playerStatePlaying vol er)
             heap nx pl (tr ++ evs)) /\
    disciplined false evs = Some false /\
    streamed h data [] evs.
Proof.
  destruct chunk as [|b chunk].
  - exists dst, [], []. cbn. by rewrite app_nil_r.
  - eexists (CopyBytesToJS dst (b :: chunk)),
      [EvLock;
       EvCall (JsObject h) "write"
         [ArgBytes (CopyBytesToJS dst (b :: chunk)); ArgInt (length (b :: chunk))];
       EvUnlock], _.
    change (Nat.ltb 0 (length (b :: chunk))) with true. cbv iota.
    split; [|split].
    + unfold_methods. by rewrite <- !app_assoc.
    + done.
    + apply streamed_write.
Qed.

(** What a return of the task tells, from whatever world it started. *)
Lemma loop_from_sound (writable : nat -> bool) (fuel : nat) :
  forall dst c r h st vol er heap nx pl tr x w',
    loop_from writable fuel dst
      (mkWorld (mkPlayer c r h st vol er) heap nx pl tr) = Some (x, w') ->
    x = Ret tt /\
    exists pl' evs r' h' st' er',
      w' = mkWorld (mkPlayer c r' h' st' vol er') heap nx pl' (tr ++ evs) /\
      disciplined false evs = Some false /\
      (Truthy h && state_eqb st playerStatePlaying = false /\
       r' = r /\ h' = h /\ st' = st /\ er' = er /\ evs = [EvLock; EvUnlock] \/
       exists h0 data,
         h = JsObject h0 /\ st = playerStatePlaying /\ h' = JsUndefined /\
         (st' = playerStatePaused /\ er' = er /\
          streamed h0 data [false] evs \/
          st' = playerStateClosed /\
          (exists msg, er' = Some (ErrOther msg)) /\
          streamed h0 data [true] evs)).
Proof.
  induction fuel as [|fuel IH];
    intros dst c r h st vol er heap nx pl tr x w'; [done|].
  rewrite loop_from_unfold.
  destruct (waitUntilUnpaused writable fuel _) as [[y w1]|] eqn:E; [|done].
  apply waitUntilUnpaused_sound in E
    as (pl1 & evs1 & -> & -> & Hd1 & Hi1 & _ & _ & Hn).
  destruct (Truthy h && state_eqb st playerStatePlaying) eqn:B.
  2:{ intros [= <- <-]. split; [done|].
      destruct (Hn eq_refl) as [-> ->].
      exists pl, [EvLock; EvUnlock], r, h, st, er.
      split; [done|]. split; [done|]. left. by repeat split. }
  destruct h as [|h0]; [done|]. destruct st; try done. clear B Hn.
  pose proof (streamed_idle h0 _ Hi1) as Hs1.
  destruct r as [|[chunk e] rest].
  - unfold_methods. cbn [fatal is_eof length Nat.ltb Nat.leb].
    unfold_methods. intros [= <- <-]. split; [done|].
    eexists pl1,
      (evs1 ++ [EvRead 0 (Some EOF)] ++ [EvLock] ++
       EvCall (JsObject h0) "close" [ArgBool false] :: [EvSignal; EvUnlock]),
      [], JsUndefined, playerStatePaused, er.
    split; [by rewrite <- !app_assoc|]. split.
    { by apply disciplined_cat. }
    right. exists h0, []. do 3 (split; [done|]). left. do 2 (split; [done|]).
    eapply streamed_app'; [exact Hs1| |done..].
    eapply streamed_app'; [apply streamed_read| |done..].
    eapply streamed_app'; [by apply (streamed_idle h0 [_])| |done..].
    by apply streamed_close.
  - change (Read _) with
      (Ret (chunk, e),
       mkWorld (mkPlayer c rest (JsObject h0) playerStatePlaying vol er)
         heap nx pl1 ((tr ++ evs1) ++ [EvRead (length chunk) e])).
    cbv iota beta.
    destruct e as [[|msg]|]; cbn [fatal is_eof].
    + destruct (write_if_sound chunk dst c rest h0 vol er heap nx pl1
                  ((tr ++ evs1) ++ [EvRead (length chunk) (Some EOF)]))
        as (dst' & evsW & data & Hwrite & HdW & HW).
      rewrite Hwrite, close_false_playing.
      intros [= <- <-]. split; [done|].
      eexists pl1,
        (evs1 ++ [EvRead (length chunk) (Some EOF)] ++ evsW ++ [EvLock] ++
         EvCall (JsObject h0) "close" [ArgBool false] :: [EvSignal; EvUnlock]),
        rest, JsUndefined, playerStatePaused, er.
      split; [by rewrite <- !app_assoc|]. split.
      { apply disciplined_cat; [done|].
        apply (disciplined_cat [_]); [done|].
        by apply disciplined_cat. }
      right. exists h0, data. do 3 (split; [done|]). left.
      do 2 (split; [done|]).
      eapply streamed_app'; [exact Hs1| |done..].
      eapply streamed_app'; [apply streamed_read| |done..].
      eapply streamed_app'; [exact HW| |by rewrite app_nil_r|done].
      eapply streamed_app'; [by apply (streamed_idle h0 [_])| |done..].
      by apply streamed_close.
    + unfold lift. unfold_methods. intros [= <- <-]. split; [done|].
      eexists pl1,
        (evs1 ++ [EvRead (length chunk) (Some (ErrOther msg))] ++ [EvLock] ++
         EvCall (JsObject h0) "close" [ArgBool true] :: [EvSignal; EvUnlock]),
        rest, JsUndefined, playerStateClosed, (Some (ErrOther msg)).
      split; [by rewrite <- !app_assoc|]. split.
      { by apply disciplined_cat. }
      right. exists h0, []. do 3 (split; [done|]). right.
      split; [done|]. split; [by exists msg|].
      eapply streamed_app'; [exact Hs1| |done..].
      eapply streamed_app'; [apply streamed_read| |done..].
      eapply streamed_app'; [by apply (streamed_idle h0 [_])| |done..].
      by apply streamed_close.
    + destruct (write_if_sound chunk dst c rest h0 vol er heap nx pl1
                  ((tr ++ evs1) ++ [EvRead (length chunk) None]))
        as (dst' & evsW & data & Hwrite & HdW & HW).
      rewrite Hwrite. intros H.
      apply IH in H as (-> & pl' & evs2 & r' & h' & st' & er' & -> & Hd2 & Hcase).
      split; [done|].
      exists pl', (evs1 ++ [EvRead (length chunk) None] ++ evsW ++ evs2),
        r', h', st', er'.
      split; [by rewrite <- !app_assoc|]. split.
      { apply disciplined_cat; [done|].
        apply (disciplined_cat [_]); [done|].
        by apply disciplined_cat. }
      right. destruct Hcase as [(B & _)|(h1 & data2 & [= <-] & _ & -> & Hend)];
        [done|].
      exists h0, (data ++ data2). do 3 (split; [done|]).
      destruct Hend as [(-> & -> & Hs)|(-> & Hm & Hs)]; [left|right];
        do 2 (split; [done|]).
      * eapply streamed_app'; [exact Hs1| |done..].
        eapply streamed_app'; [apply streamed_read| |done..].
        eapply streamed_app'; [exact HW|exact Hs|done..].
      * eapply streamed_app'; [exact Hs1| |done..].
        eapply streamed_app'; [apply streamed_read| |done..].
        eapply streamed_app'; [exact HW|exact Hs|done..].
Qed.


Lemma waitUntilUnpaused_paused (writable : nat -> bool) (fuel : nat)
    (w : World) :
  Truthy (v (player w)) = true ->
  state (player w) = playerStatePaused ->
  waitUntilUnpaused writable fuel w = None.
Proof.
  destruct w as [[c r h st vol er] heap nx pl tr]. cbn [player v state].
  intros Hh ->.
  destruct (waitUntilUnpaused writable fuel _) as [[x w']|] eqn:E; [|done].
  apply waitUntilUnpaused_sound in E as (_ & _ & _ & _ & _ & _ & Hp & _).
  by rewrite Hh in Hp.
Qed.

Lemma waitUntilUnpaused_refused (writable : nat -> bool) (fuel : nat)
    (w : World) :
  Truthy (v (player w)) = true ->
  state (player w) = playerStatePlaying ->
  (forall k, polls w <= k -> writable k = false) ->
  waitUntilUnpaused writable fuel w = None.
Proof.
  destruct w as [[c r h st vol er] heap nx pl tr]. cbn [player v state polls].
  intros Hh -> Hnever.
  destruct (waitUntilUnpaused writable fuel _) as [[x w']|] eqn:E; [|done].
  apply waitUntilUnpaused_sound in E as (pl' & _ & _ & _ & _ & _ & _ & Hw & _).
  rewrite Hh in Hw. destruct (Hw eq_refl) as [Hlt Hwr].
  rewrite Hnever in Hwr; [done|lia].
Qed.

(** X9: while the player is paused and has a handle, and while it is
    playing and the sink keeps answering that it is not writable, the task
    stays in [waitUntilUnpaused] however long it runs: it neither reads
    the source nor returns. *)
Theorem task_parks (writable : nat -> bool) (fuel : nat) (dst : list byte)
    (w : World) :
  Truthy (v (player w)) = true ->
  state (player w) = playerStatePaused \/
  state (player w) = playerStatePlaying /\
  (forall k, polls w <= k -> writable k = false) ->
  waitUntilUnpaused writable fuel w = None /\
  loop_from writable fuel dst w = None.
Proof.
  intros Hh Hcase.
  assert (Hwait : forall f, waitUntilUnpaused writable f w = None).
  { intros f. destruct Hcase as [Hp|[Hp Hn]].
    - by apply waitUntilUnpaused_paused.
    - by apply waitUntilUnpaused_refused. }
  split; [apply Hwait|].
  destruct fuel as [|fuel]; [done|].
  by rewrite loop_from_unfold, Hwait.
Qed.


Lemma perform_disciplined (c : call) (w : World) :
  disciplined false (emitted w (exec (perform c) w)) =
  if lock_free c && Truthy (v (player w)) then None else Some false.
Proof.
  destruct w as [[[cx] r h st vol er] heap nx pl tr].
  destruct c; destruct st; destruct h; destruct cx; try destruct remove;
    unfold_methods; try destruct (heap !! _); eval_emitted; done.
Qed.

(** X11: the mutex protocol.  Every method but [Volume] and [SetVolume]
    takes the lock when it is free, touches the handle, signals and
    starts the task only while it holds the lock, and gives the lock back
    before it returns, also when it panics; [Volume] and [SetVolume] touch
    the handle without the lock.  The task, whenever it returns, has
    followed the protocol too, has waited only while holding the lock and
    has read the source only while not holding it. *)
Theorem mutex_protocol (w : World) :
  (forall c,
     disciplined false (emitted w (exec (perform c) w)) =
     if lock_free c && Truthy (v (player w)) then None else Some false) /\
  (forall writable fuel dst x w',
     loop_from writable fuel dst w = Some (x, w') ->
     disciplined false (emitted w w') = Some false) /\
  (forall writable fuel x w',
     waitUntilUnpaused writable fuel w = Some (x, w') ->
     disciplined false (emitted w w') = Some false).
Proof.
  split; [intros c; apply perform_disciplined|]. split.
  - intros writable fuel dst x w'.
    destruct w as [[c r h st vol er] heap nx pl tr]. intros H.
    apply loop_from_sound in H
      as (_ & pl' & evs & r' & h' & st' & er' & -> & Hd & _).
    unfold emitted. cbn [trace]. by rewrite drop_app_length.
  - intros writable fuel x w'.
    destruct w as [[c r h st vol er] heap nx pl tr]. intros H.
    apply waitUntilUnpaused_sound in H as (pl' & evs & _ & -> & Hd & _).
    unfold emitted. cbn [trace]. by rewrite drop_app_length.
Qed.

(** ** The task over any script *)

Lemma loop_from_script (writable : nat -> bool) :
  eventually_writable writable ->
  forall r, fits r ->
  forall c h vol er heap nx pl tr dst,
    length dst = size ->
    exists fuel pl' evs,
      loop_from writable fuel dst
        (mkWorld (mkPlayer c r (JsObject h) playerStatePlaying vol er)
                 heap nx pl tr) =
      Some (Ret tt,
            mkWorld (mkPlayer c (unread r) JsUndefined
                       (if failed r then playerStateClosed
                        else playerStatePaused)
                       vol
                       (if failed r then failure r else er))
                    heap nx pl' (tr ++ evs)) /\
      streamed h (delivered r) [failed r] evs.
Proof.
  intros fair r Hfits.
  induction Hfits as [|[chunk e] r Hlen Hfits IH];
    intros c h vol er heap nx pl tr dst Hdst;
    destruct (fair pl) as [j Hj].
  - destruct (waitUntilUnpaused_playing writable j c [] h vol er heap nx pl tr Hj)
      as (pl1 & evs1 & Hwait & Hidle).
    exists (S j), pl1,
      (evs1 ++ [EvRead 0 (Some EOF)] ++ [EvLock] ++
       EvCall (JsObject h) "close" [ArgBool false] :: [EvSignal; EvUnlock]).
    split.
    + rewrite loop_from_unfold, Hwait. unfold_methods.
      cbn [fatal is_eof length Nat.ltb Nat.leb]. unfold_methods.
      by rewrite <- !app_assoc.
    + eapply streamed_app'; [by apply streamed_idle| |done..].
      eapply streamed_app'; [apply streamed_read| |done..].
      eapply streamed_app'; [by apply (streamed_idle h [_])| |done..].
      by apply streamed_close.
  - cbn [fst] in Hlen.
    destruct (waitUntilUnpaused_playing writable j c ((chunk, e) :: r)
                h vol er heap nx pl tr Hj)
      as (pl1 & evs1 & Hwait & Hidle).
    destruct (write_if_playing chunk dst c r h vol er heap nx pl1
                ((tr ++ evs1) ++ [EvRead (length chunk) e]) Hdst Hlen)
      as (dst' & evsW & Hwrite & Hdst' & HW).
    assert (HRead :
      Read (mkWorld (mkPlayer c ((chunk, e) :: r) (JsObject h)
                       playerStatePlaying vol er) heap nx pl1 (tr ++ evs1)) =
      (Ret (chunk, e),
       mkWorld (mkPlayer c r (JsObject h) playerStatePlaying vol er)
         heap nx pl1 ((tr ++ evs1) ++ [EvRead (length chunk) e])))
      by reflexivity.
    destruct e as [[|msg]|].
    + exists (S j), pl1,
        (evs1 ++ [EvRead (length chunk) (Some EOF)] ++ evsW ++ [EvLock] ++
         EvCall (JsObject h) "close" [ArgBool false] :: [EvSignal; EvUnlock]).
      split.
      * rewrite loop_from_unfold, Hwait, HRead. cbn [fatal is_eof].
        rewrite Hwrite, close_false_playing. by rewrite <- !app_assoc.
      * eapply streamed_app'; [by apply streamed_idle| |done..].
        eapply streamed_app'; [apply streamed_read| |done..].
        eapply streamed_app'; [exact HW| |by rewrite app_nil_r|done].
        eapply streamed_app'; [by apply (streamed_idle h [_])| |done..].
        by apply streamed_close.
    + exists (S j), pl1,
        (evs1 ++ [EvRead (length chunk) (Some (ErrOther msg))] ++ [EvLock] ++
         EvCall (JsObject h) "close" [ArgBool true] :: [EvSignal; EvUnlock]).
      split.
      * rewrite loop_from_unfold, Hwait, HRead. cbn [fatal].
        unfold lift. unfold_methods. by rewrite <- !app_assoc.
      * eapply streamed_app'; [by apply streamed_idle| |done..].
        eapply streamed_app'; [apply streamed_read| |done..].
        eapply streamed_app'; [by apply (streamed_idle h [_])| |done..].
        by apply streamed_close.
    + destruct (IH c h vol er heap nx pl1
                  (((tr ++ evs1) ++ [EvRead (length chunk) None]) ++ evsW)
                  dst' Hdst')
        as (fuel2 & pl' & evs2 & Hloop & Hrest).
      exists (S (Nat.max j fuel2)), pl',
        (evs1 ++ [EvRead (length chunk) None] ++ evsW ++ evs2).
      split.
      * rewrite loop_from_unfold.
        rewrite (waitUntilUnpaused_mono _ j _ _ _ Hwait) by lia.
        rewrite HRead. cbn [fatal is_eof]. rewrite Hwrite.
        rewrite (loop_from_mono _ fuel2 _ _ _ _ (Nat.le_max_r _ _) Hloop).
        by rewrite <- !app_assoc.
      * eapply streamed_app'; [by apply streamed_idle| |done..].
        eapply streamed_app'; [apply streamed_read| |done..].
        eapply streamed_app'; [exact HW|exact Hrest|done..].
Qed.

(** X12: the task over any script of reads that fit the buffer, started
    on a playing player with a handle and a sink that does not refuse data
    for ever, returns.  The handle has received the bytes of the reads up
    to the first one that carried an error, with the bytes of that read
    if the error was [io.EOF] and without them otherwise; the reads after
    it are left in the source.  The player ends paused with its error
    unchanged, or closed with the error of that read. *)
Theorem task_over_script (writable : nat -> bool) (w : World) (h : nat)
    (dst : list byte) :
  eventually_writable writable ->
  fits (src (player w)) ->
  v (player w) = JsObject h ->
  state (player w) = playerStatePlaying ->
  length dst = size ->
  exists fuel w',
    loop_from writable fuel dst w = Some (Ret tt, w') /\
    written h (emitted w w') = delivered (src (player w)) /\
    (forall h', h' <> h -> written h' (emitted w w') = []) /\
    src (player w') = unread (src (player w)) /\
    v (player w') = JsUndefined /\
    state (player w') =
      (if failed (src (player w)) then playerStateClosed
       else playerStatePaused) /\
    err (player w') =
      (if failed (src (player w)) then failure (src (player w))
       else err (player w)) /\
    closeFlags (emitted w w') = [failed (src (player w))].
Proof.
  destruct w as [[c r h0 st vol er] heap nx pl tr].
  cbn [player src v state err].
  intros fair Hfits -> -> Hdst.
  destruct (loop_from_script writable fair r Hfits c h vol er heap nx pl tr dst
              Hdst) as (fuel & pl' & evs & Hloop & HW & HO & HF & _).
  eexists fuel, _. split; [exact Hloop|].
  unfold emitted. cbn [trace player src v state err].
  rewrite drop_app_length. done.
Qed.

(** X13: [Reset] on a player with a handle closes that handle with [true]
    and keeps the state; [Play] and its task then go on from where the
    source stands, on a new handle: the new handle receives what the
    remaining script delivers, the old one nothing more. *)
Theorem Reset_then_Play_resumes (writable : nat -> bool) (w : World)
    (h ctx : nat) :
  eventually_writable writable ->
  fits (src (player w)) ->
  v (player w) = JsObject h ->
  h < jsNext w ->
  state (player w) <> playerStateClosed ->
  cv (context (player w)) = JsObject ctx ->
  state (player (exec Reset w)) = state (player w) /\
  v (player (exec Reset w)) = JsUndefined /\
  exists fuel w',
    PlayAndLoop writable fuel (exec Reset w) = Some (Ret tt, w') /\
    written (jsNext w) (emitted w w') = delivered (src (player w)) /\
    written h (emitted w w') = [] /\
    closeFlags (emitted w w') = [true; failed (src (player w))] /\
    List.filter is_create (emitted w w') =
      [EvCall (JsObject ctx) "createPlayer" [ArgFunc]] /\
    src (player w') = unread (src (player w)) /\
    v (player w') = JsUndefined.
Proof.
  destruct w as [[[cx] r h0 st vol er] heap nx pl tr].
  cbn [player src v state context cv jsNext].
  intros fair Hfits -> Hlt Hst ->.
  assert (HReset : exists w1 : World,
    exec Reset (mkWorld (mkPlayer (mkContext (JsObject ctx)) r (JsObject h)
                           st vol er) heap nx pl tr) = w1 /\
    w1 = mkWorld (mkPlayer (mkContext (JsObject ctx)) r JsUndefined st vol er)
           heap nx pl
           (tr ++ [EvLock; EvCall (JsObject h) "close" [ArgBool true];
                   EvSignal; EvUnlock])).
  { eexists. split; [|reflexivity].
    destruct st; [| |done]; unfold_methods; by rewrite <- !app_assoc. }
  destruct HReset as (w1 & -> & ->).
  split; [done|]. split; [done|].
  set (t1 := tr ++ [EvLock; EvCall (JsObject h) "close" [ArgBool true];
                    EvSignal; EvUnlock]).
  set (t2 := t1 ++ [EvLock; EvCall (JsObject ctx) "createPlayer" [ArgFunc];
                    EvSet (JsObject nx) "volume" (ArgFloat vol); EvGo;
                    EvCall (JsObject nx) "play" []; EvSignal; EvUnlock]).
  assert (HPlay :
    Play (mkWorld (mkPlayer (mkContext (JsObject ctx)) r JsUndefined st vol er)
            heap nx pl t1) =
    (Ret tt,
     mkWorld (mkPlayer (mkContext (JsObject ctx)) r (JsObject nx)
                playerStatePlaying vol er)
       (<[nx := vol]> heap) (S nx) pl t2)).
  { unfold t2. destruct st; [| |done]; unfold_methods; by rewrite <- !app_assoc. }
  destruct (loop_from_script writable fair r Hfits
              (mkContext (JsObject ctx)) nx vol er (<[nx := vol]> heap) (S nx)
              pl t2 (replicate size Byte.x00) (length_replicate _ _))
    as (fuel & pl' & evs & Hloop & HW & HO & HF & HC & _).
  eexists fuel, _. split.
  { unfold PlayAndLoop, bindF, lift. rewrite HPlay. exact Hloop. }
  unfold emitted. cbn [trace player src v].
  unfold t2, t1. rewrite <- !app_assoc, drop_app_length.
  rewrite !written_app, !closeFlags_app, !List.filter_app, HW, HF, HC.
  rewrite (HO h) by lia.
  repeat split; try done.
Qed.

(** ** Writing, pausing and the volume *)

Lemma CopyBytesToJS_taken (dst src : list byte) :
  take (length src) (CopyBytesToJS dst src) = take (length dst) src.
Proof.
  unfold CopyBytesToJS.
  destruct (Nat.le_ge_cases (length src) (length dst)) as [Hle|Hge].
  - rewrite Nat.min_r by done.
    rewrite firstn_all, take_app_length.
    symmetry. by apply take_ge.
  - rewrite Nat.min_l by done.
    rewrite (drop_ge dst) by done. rewrite app_nil_r.
    apply take_ge. rewrite length_take. lia.
Qed.

(** X14: [write] on a closed player or on one without a handle calls
    nothing and leaves the array alone.  Otherwise, paused or playing, it
    copies the slice into the array and makes one [write] call, from
    which the sink takes the slice itself when the slice fits the array,
    and in any case the part of the slice that fits; the fields are not
    changed. *)
Theorem write_delivery (dst bs : list byte) (w : World) :
  (is_closed (state (player w)) || negb (Truthy (v (player w))) = true ->
     fst (write dst bs w) = Ret dst /\
     player (exec (write dst bs) w) = player w /\
     emitted w (exec (write dst bs) w) = [EvLock; EvUnlock]) /\
  (forall h,
     v (player w) = JsObject h ->
     state (player w) <> playerStateClosed ->
     fst (write dst bs w) = Ret (CopyBytesToJS dst bs) /\
     length (CopyBytesToJS dst bs) = length dst /\
     player (exec (write dst bs) w) = player w /\
     emitted w (exec (write dst bs) w) =
       [EvLock;
        EvCall (JsObject h) "write"
          [ArgBytes (CopyBytesToJS dst bs); ArgInt (length bs)];
        EvUnlock] /\
     written h (emitted w (exec (write dst bs) w)) = take (length dst) bs /\
     (length bs <= length dst ->
        written h (emitted w (exec (write dst bs) w)) = bs)).
Proof.
  destruct w as [[[cx] r h0 st vol er] heap nx pl tr].
  cbn [player state v]. split.
  - destruct st, h0; try done; intros _; unfold_methods; eval_emitted; done.
  - intros h -> Hst.
    assert (Hw : written h
              [EvLock;
               EvCall (JsObject h) "write"
                 [ArgBytes (CopyBytesToJS dst bs); ArgInt (length bs)];
               EvUnlock] = take (length dst) bs).
    { destruct (streamed_write h (CopyBytesToJS dst bs) (length bs))
        as (-> & _).
      apply CopyBytesToJS_taken. }
    assert (Hrun :
      write dst bs (mkWorld (mkPlayer (mkContext cx) r (JsObject h) st vol er)
                      heap nx pl tr) =
      (Ret (CopyBytesToJS dst bs),
       mkWorld (mkPlayer (mkContext cx) r (JsObject h) st vol er) heap nx pl
         (tr ++ [EvLock;
                 EvCall (JsObject h) "write"
                   [ArgBytes (CopyBytesToJS dst bs); ArgInt (length bs)];
                 EvUnlock]))).
    { destruct st; [| |done]; unfold_methods; by rewrite <- !app_assoc. }
    unfold exec, emitted. rewrite Hrun. cbn [fst snd trace player].
    rewrite drop_app_length.
    split; [done|]. split; [apply CopyBytesToJS_length|].
    split; [done|]. split; [done|]. split; [exact Hw|].
    intros Hle. rewrite Hw. by apply take_ge.
Qed.

(** X15: the volume outlives the handle.  After [SetVolume x] on a player
    with a handle and a [Reset], [Volume] still answers [x]; the next
    [Play] sets the [volume] property of the new handle to [x], and
    [Volume] answers [x] from it. *)
Theorem volume_outlives_handle (x : float64) (w : World) (h ctx : nat) :
  v (player w) = JsObject h ->
  state (player w) <> playerStateClosed ->
  cv (context (player w)) = JsObject ctx ->
  fst (Volume (exec Reset (exec (SetVolume x) w))) = Ret x /\
  v (player (exec Play (exec Reset (exec (SetVolume x) w)))) =
    JsObject (jsNext w) /\
  jsVolume (exec Play (exec Reset (exec (SetVolume x) w))) !! jsNext w =
    Some x /\
  fst (Volume (exec Play (exec Reset (exec (SetVolume x) w)))) = Ret x.
Proof.
  destruct w as [[[cx] r h0 st vol er] heap nx pl tr].
  cbn [player state v context cv jsNext].
  intros -> Hst ->.
  destruct st; [| |done]; unfold_methods; rewrite !lookup_insert_eq; done.
Qed.

(** X16: [Pause] on a player with a handle parks the task: until another
    call it neither returns nor reads.  A [Play] after the [Pause]
    allocates nothing, and the task then delivers the script to the
    handle the player had. *)
Theorem Pause_then_Play (writable : nat -> bool) (w : World) (h : nat)
    (dst : list byte) :
  eventually_writable writable ->
  fits (src (player w)) ->
  v (player w) = JsObject h ->
  state (player w) <> playerStateClosed ->
  length dst = size ->
  (forall fuel, loop_from writable fuel dst (exec Pause w) = None) /\
  state (player (exec Pause w)) = playerStatePaused /\
  exists fuel w',
    loop_from writable fuel dst (exec Play (exec Pause w)) =
      Some (Ret tt, w') /\
    written h (emitted w w') = delivered (src (player w)) /\
    List.filter is_create (emitted w w') = [] /\
    List.filter is_go (emitted w w') = [] /\
    v (player w') = JsUndefined.
Proof.
  destruct w as [[[cx] r h0 st vol er] heap nx pl tr].
  cbn [player src state v].
  intros fair Hfits -> Hst Hdst.
  set (t1 := tr ++ [EvLock; EvCall (JsObject h) "pause" []; EvSignal; EvUnlock]).
  assert (HPause :
    exec Pause (mkWorld (mkPlayer (mkContext cx) r (JsObject h) st vol er)
                  heap nx pl tr) =
    mkWorld (mkPlayer (mkContext cx) r (JsObject h) playerStatePaused vol er)
      heap nx pl t1).
  { unfold t1. destruct st; [| |done]; unfold_methods; by rewrite <- !app_assoc. }
  rewrite HPause. split; [|split; [done|]].
  - intros fuel. destruct fuel as [|fuel]; [done|].
    rewrite loop_from_unfold.
    by rewrite waitUntilUnpaused_paused.
  - set (t2 := t1 ++ [EvLock; EvCall (JsObject h) "play" []; EvSignal; EvUnlock]).
    assert (HPlay :
      exec Play (mkWorld (mkPlayer (mkContext cx) r (JsObject h)
                            playerStatePaused vol er) heap nx pl t1) =
      mkWorld (mkPlayer (mkContext cx) r (JsObject h) playerStatePlaying vol er)
        heap nx pl t2).
    { unfold t2. unfold_methods. by rewrite <- !app_assoc. }
    rewrite HPlay.
    destruct (loop_from_script writable fair r Hfits (mkContext cx) h vol er
                heap nx pl t2 dst Hdst)
      as (fuel & pl' & evs & Hloop & HW & _ & _ & HC & HG).
    eexists fuel, _. split; [exact Hloop|].
    unfold emitted. cbn [trace player v].
    unfold t2, t1. rewrite <- !app_assoc, drop_app_length.
    rewrite !written_app, !List.filter_app, HW, HC, HG. done.
Qed.

(** X17: once the task has come to the end of the stream, the player is
    paused without a handle, and [Close] on it panics in the call on
    [undefined]: the player is not closed by it and its callback is not
    released. *)
Theorem Close_after_end_of_stream (writable : nat -> bool) (w : World)
    (h : nat) (dst : list byte) :
  eventually_writable writable ->
  fits (src (player w)) ->
  failed (src (player w)) = false ->
  v (player w) = JsObject h ->
  state (player w) = playerStatePlaying ->
  length dst = size ->
  exists fuel w',
    loop_from writable fuel dst w = Some (Ret tt, w') /\
    state (player w') = playerStatePaused /\
    v (player w') = JsUndefined /\
    panics (fst (Close w')) = true /\
    state (player (exec Close w')) = playerStatePaused /\
    emitted w' (exec Close w') =
      [EvSetFinalizer false; EvLock;
       EvCall JsUndefined "close" [ArgBool false]; EvUnlock].
Proof.
  destruct w as [[c r h0 st vol er] heap nx pl tr].
  cbn [player src v state].
  intros fair Hfits Hok -> -> Hdst.
  destruct (loop_from_script writable fair r Hfits c h vol er heap nx pl tr dst
              Hdst) as (fuel & pl' & evs & Hloop & _).
  rewrite Hok in Hloop.
  eexists fuel, _. split; [exact Hloop|].
  cbn [player state v]. split; [done|]. split; [done|].
  split; [reflexivity|]. split; [reflexivity|].
  apply emitted_app. unfold_methods. by rewrite <- !app_assoc.
Qed.

(** ** The further properties on sample runs *)

Lemma three_bytes_fits : fits three_bytes.
Proof. repeat constructor; cbn; unfold size; lia. Qed.

(** X1 on the run [Play], [Close] from a new player. *)
Lemma reachable_worlds_are_consistent_witness :
  state (player (run [CallPlay; CallClose] (created 0 three_bytes ∅ 1 0 []))) =
    playerStateClosed /\
  v (player (run [CallPlay; CallClose] (created 0 three_bytes ∅ 1 0 []))) =
    JsUndefined.
Proof.
  destruct (reachable_worlds_are_consistent 0 three_bytes ∅ 1 0 []
              [CallPlay; CallClose]) as [H _].
  split; [reflexivity|]. apply H. reflexivity.
Defined.

(** X4 on the playing player. *)
Lemma Close_is_idempotent_witness :
  panics (fst (Close playing)) = false /\
  fst (Close (exec Close playing)) = fst (Close playing) /\
  emitted (exec Close playing) (exec Close (exec Close playing)) =
    [EvSetFinalizer false; EvLock; EvUnlock].
Proof.
  destruct (Close_is_idempotent playing) as (H1 & _ & H3).
  split; [reflexivity|]. split; [exact H1|]. apply H3. reflexivity.
Defined.

(** X5 on a player closed by [setError], then closed again. *)
Lemma onWritten_released_at_most_once_witness :
  state (player failed_once) = playerStateClosed /\
  List.filter is_release
    (emitted failed_once (run [CallClose; CallPlay; CallClose] failed_once)) =
    [].
Proof.
  destruct (onWritten_released_at_most_once [CallClose; CallPlay; CallClose]
              failed_once) as (_ & H & _).
  split; [reflexivity|]. apply H. reflexivity.
Defined.

(** X6 on [Play] on a new player. *)
Lemma changes_are_signalled_witness :
  (state (player (exec (perform CallPlay) (initial three_bytes))) <>
     state (player (initial three_bytes)) \/
   v (player (exec (perform CallPlay) (initial three_bytes))) <>
     v (player (initial three_bytes)) \/
   err (player (exec (perform CallPlay) (initial three_bytes))) <>
     err (player (initial three_bytes))) /\
  In EvSignal
    (emitted (initial three_bytes)
       (exec (perform CallPlay) (initial three_bytes))).
Proof.
  assert (H : state (player (exec (perform CallPlay) (initial three_bytes))) <>
                state (player (initial three_bytes)) \/
              v (player (exec (perform CallPlay) (initial three_bytes))) <>
                v (player (initial three_bytes)) \/
              err (player (exec (perform CallPlay) (initial three_bytes))) <>
                err (player (initial three_bytes)))
    by (left; discriminate).
  split; [exact H|].
  exact (changes_are_signalled CallPlay (initial three_bytes) H).
Defined.


(** X9 on the playing player after [Pause]. *)
Lemma task_parks_witness :
  Truthy (v (player (exec Pause playing))) = true /\
  state (player (exec Pause playing)) = playerStatePaused /\
  loop_from every_other 7 (replicate size Byte.x00) (exec Pause playing) = None.
Proof.
  assert (Hh : Truthy (v (player (exec Pause playing))) = true) by reflexivity.
  assert (Hs : state (player (exec Pause playing)) = playerStatePaused)
    by reflexivity.
  destruct (task_parks every_other 7 (replicate size Byte.x00)
              (exec Pause playing) Hh (or_introl Hs)) as [_ H].
  split; [exact Hh|]. split; [exact Hs|exact H].
Defined.


(** X11 on the task of the playing player. *)
Lemma mutex_protocol_witness :
  exists x w',
    loop_from every_other 10 (replicate size Byte.x00) playing = Some (x, w') /\
    disciplined false (emitted playing w') = Some false.
Proof.
  assert (E : exists x w',
    loop_from every_other 10 (replicate size Byte.x00) playing = Some (x, w')).
  { vm_compute. eexists _, _. reflexivity. }
  destruct E as (x & w' & E).
  destruct (mutex_protocol playing) as (_ & H & _).
  exists x, w'. split; [exact E|].
  exact (H every_other 10 (replicate size Byte.x00) x w' E).
Defined.

(** X12 on the playing player. *)
Lemma task_over_script_witness :
  eventually_writable every_other /\
  fits (src (player playing)) /\
  v (player playing) = JsObject 1 /\
  state (player playing) = playerStatePlaying /\
  length (replicate size Byte.x00) = size /\
  exists fuel w',
    loop every_other fuel playing = Some (Ret tt, w') /\
    written 1 (emitted playing w') = [Byte.x01; Byte.x02; Byte.x03].
Proof.
  destruct (task_over_script every_other playing 1 (replicate size Byte.x00)
              every_other_fair three_bytes_fits eq_refl eq_refl
              (length_replicate _ _))
    as (fuel & w' & Hrun & Hw & _).
  split; [exact every_other_fair|]. split; [exact three_bytes_fits|].
  split; [reflexivity|]. split; [reflexivity|].
  split; [apply length_replicate|].
  exists fuel, w'. split; [exact Hrun|exact Hw].
Defined.

(** X13 on the playing player. *)
Lemma Reset_then_Play_resumes_witness :
  eventually_writable every_other /\
  fits (src (player playing)) /\
  v (player playing) = JsObject 1 /\
  1 < jsNext playing /\
  state (player playing) <> playerStateClosed /\
  cv (context (player playing)) = JsObject 0 /\
  exists fuel w',
    PlayAndLoop every_other fuel (exec Reset playing) = Some (Ret tt, w') /\
    written 2 (emitted playing w') = [Byte.x01; Byte.x02; Byte.x03] /\
    written 1 (emitted playing w') = [].
Proof.
  assert (Hlt : 1 < jsNext playing) by (cbn; lia).
  assert (Hst : state (player playing) <> playerStateClosed) by discriminate.
  destruct (Reset_then_Play_resumes every_other playing 1 0
              every_other_fair three_bytes_fits eq_refl Hlt Hst eq_refl)
    as (_ & _ & fuel & w' & Hrun & Hw & Ho & _).
  split; [exact every_other_fair|]. split; [exact three_bytes_fits|].
  split; [reflexivity|]. split; [exact Hlt|]. split; [exact Hst|].
  split; [reflexivity|].
  exists fuel, w'. split; [exact Hrun|]. split; [exact Hw|exact Ho].
Defined.

(** X14 on the playing player and an array of four bytes. *)
Lemma write_delivery_witness :
  v (player playing) = JsObject 1 /\
  state (player playing) <> playerStateClosed /\
  length [Byte.x01; Byte.x02] <= length [Byte.xff; Byte.xff; Byte.xff; Byte.xff] /\
  written 1
    (emitted playing
       (exec (write [Byte.xff; Byte.xff; Byte.xff; Byte.xff]
                [Byte.x01; Byte.x02]) playing)) = [Byte.x01; Byte.x02].
Proof.
  assert (Hst : state (player playing) <> playerStateClosed) by discriminate.
  assert (Hle : length [Byte.x01; Byte.x02] <=
                length [Byte.xff; Byte.xff; Byte.xff; Byte.xff]) by (cbn; lia).
  destruct (write_delivery [Byte.xff; Byte.xff; Byte.xff; Byte.xff]
              [Byte.x01; Byte.x02] playing) as [_ H].
  destruct (H 1 eq_refl Hst) as (_ & _ & _ & _ & _ & Hw).
  split; [reflexivity|]. split; [exact Hst|]. split; [exact Hle|].
  exact (Hw Hle).
Defined.

(** X15 on the playing player. *)
Lemma volume_outlives_handle_witness :
  v (player playing) = JsObject 1 /\
  state (player playing) <> playerStateClosed /\
  cv (context (player playing)) = JsObject 0 /\
  fst (Volume (exec Play (exec Reset (exec (SetVolume float64_half) playing)))) =
    Ret float64_half.
Proof.
  assert (Hst : state (player playing) <> playerStateClosed) by discriminate.
  destruct (volume_outlives_handle float64_half playing 1 0 eq_refl Hst eq_refl)
    as (_ & _ & _ & H).
  split; [reflexivity|]. split; [exact Hst|]. split; [reflexivity|exact H].
Defined.

(** X16 on the playing player. *)
Lemma Pause_then_Play_witness :
  eventually_writable every_other /\
  fits (src (player playing)) /\
  v (player playing) = JsObject 1 /\
  state (player playing) <> playerStateClosed /\
  length (replicate size Byte.x00) = size /\
  loop_from every_other 9 (replicate size Byte.x00) (exec Pause playing) = None /\
  exists fuel w',
    loop every_other fuel (exec Play (exec Pause playing)) = Some (Ret tt, w') /\
    written 1 (emitted playing w') = [Byte.x01; Byte.x02; Byte.x03].
Proof.
  assert (Hst : state (player playing) <> playerStateClosed) by discriminate.
  destruct (Pause_then_Play every_other playing 1 (replicate size Byte.x00)
              every_other_fair three_bytes_fits eq_refl Hst
              (length_replicate _ _))
    as (Hpark & _ & fuel & w' & Hrun & Hw & _).
  split; [exact every_other_fair|]. split; [exact three_bytes_fits|].
  split; [reflexivity|]. split; [exact Hst|].
  split; [apply length_replicate|]. split; [exact (Hpark 9)|].
  exists fuel, w'. split; [exact Hrun|exact Hw].
Defined.

(** X17 on the playing player. *)
Lemma Close_after_end_of_stream_witness :
  eventually_writable every_other /\
  fits (src (player playing)) /\
  failed (src (player playing)) = false /\
  v (player playing) = JsObject 1 /\
  state (player playing) = playerStatePlaying /\
  length (replicate size Byte.x00) = size /\
  exists fuel w',
    loop every_other fuel playing = Some (Ret tt, w') /\
    panics (fst (Close w')) = true.
Proof.
  destruct (Close_after_end_of_stream every_other playing 1
              (replicate size Byte.x00) every_other_fair three_bytes_fits
              eq_refl eq_refl eq_refl (length_replicate _ _))
    as (fuel & w' & Hrun & _ & _ & Hp & _).
  split; [exact every_other_fair|]. split; [exact three_bytes_fits|].
  split; [reflexivity|]. split; [reflexivity|]. split; [reflexivity|].
  split; [apply length_replicate|].
  exists fuel, w'. split; [exact Hrun|exact Hp].
Defined.
